(** * bf-decoder.py: a Brainfuck interpreter, embedded and verified

    Shallow embedding of [src/bf-decoder.py]: [sanitize],
    [build_bracket_map], the class [BrainfuckInterpreter] ([__init__]
    and [run]) and [main] from the parsed arguments on.

    Conventions of the embedding.
    - A Python [str] is a sequence of Unicode code points: [str := list Z],
      every element in [0, 0x110000).  [ord] of a one-character string is
      its code point; [chr] raises [ValueError] outside that range and
      [OverflowError] for an argument that is no C [int].
    - Python [int] is [Z]; positions produced by [enumerate], the
      instruction pointer and the input index only ever count up from 0
      and are [nat].
    - The interpreter is CPython on a 64-bit platform with its default
      settings: [sys.maxsize] is [2^63 - 1], and an [int] is written in
      decimal only up to 4300 digits.
    - A [dict] is a [gmap], a [set] a [gset]; a missing key is [KeyError].
    - A [list] indexed by an [int] follows Python: negative indices count
      from the end, anything else out of range is [IndexError].
    - [raise] is an explicit outcome; the object [self] is threaded
      through [run], which returns it as the call left it. *)

From Stdlib Require Import ZArith String Ascii.
From stdpp Require Import base option list gmap pretty.

Local Open Scope Z_scope.

(** ** Exceptions and outcomes *)

Inductive exn :=
  | SyntaxError_UnmatchedClose (pos : nat)   (* "Unmatched ']' en posición {pos}" *)
  | SyntaxError_UnmatchedOpen (pos : nat)    (* "Unmatched '[' en posición {pos}" *)
  | RuntimeError_MaxSteps (limit : Z)        (* "Max steps superado ({limit})..." *)
  | ValueError_TapeSize                      (* "tape_size debe ser > 0" *)
  | ValueError_Chr                           (* "chr() arg not in range(0x110000)" *)
  | ValueError_IntMaxStrDigits               (* "Exceeds the limit (4300 digits)..." *)
  | OverflowError                            (* an [int] too large for a C integer *)
  | MemoryError
  | IndexError
  | KeyError (key : nat).

Inductive outcome (A : Type) :=
  | Return (a : A)
  | Raise (e : exn).
Arguments Return {A} a.
Arguments Raise {A} e.

#[global] Instance outcome_ret : MRet outcome := fun A a => Return a.

#[global] Instance outcome_bind : MBind outcome := fun A B k o =>
  match o with
  | Return a => k a
  | Raise e => Raise e
  end.

Definition or_raise {A} (o : option A) (e : exn) : outcome A :=
  match o with
  | Some a => Return a
  | None => Raise e
  end.

(** ** Python values *)

Module Py.

Abbreviation str := (list Z).

(** Code point of an ASCII character literal. *)
Definition ch (a : ascii) : Z := Z.of_N (N_of_ascii a).

(** A string literal as a Python [str]. *)
Definition lit (s : string) : str := ch <$> list_ascii_of_string s.

Definition valid_codepoint (c : Z) : Prop := 0 <= c < 1114112.

Definition ord (c : Z) : Z := c.

(** [chr(i)]: the argument is taken as a C [int], then checked against
    the code points. *)
Definition chr (i : Z) : outcome str :=
  if (i <? - 2 ^ 31) || (2 ^ 31 - 1 <? i) then Raise OverflowError
  else if (0 <=? i) && (i <? 1114112) then Return [i]
  else Raise ValueError_Chr.

(** [sep.join(parts)] for the empty separator. *)
Definition join (parts : list str) : str := concat parts.

(** [l[i]] for a Python list; [None] stands for [IndexError]. *)
Definition getitem {A} (l : list A) (i : Z) : option A :=
  let n := Z.of_nat (length l) in
  if 0 <=? i then l !! Z.to_nat i
  else if - n <=? i then l !! Z.to_nat (n + i)
  else None.

(** [l[i] = x] for a Python list; [None] stands for [IndexError]. *)
Definition setitem {A} (l : list A) (i : Z) (x : A) : option (list A) :=
  let n := Z.of_nat (length l) in
  if (0 <=? i) && (i <? n) then Some (<[Z.to_nat i := x]> l)
  else if (- n <=? i) && (i <? 0) then Some (<[Z.to_nat (n + i) := x]> l)
  else None.

(** [sys.maxsize], the largest list index and length. *)
Definition sys_maxsize : Z := 2 ^ 63 - 1.

(** [[x] * n].  The factor has to fit a list length, or the product
    raises [OverflowError]; a list whose [n] references, 8 bytes each,
    exceed [sys.maxsize] bytes is refused with [MemoryError] before any
    memory is asked for.  A smaller list also raises [MemoryError] when
    the machine cannot hold it: the embedding leaves that out, as it
    does for every other allocation of the program. *)
Definition repeat_item {A} (x : A) (n : Z) : outcome (list A) :=
  if (n <? - sys_maxsize - 1) || (sys_maxsize <? n) then Raise OverflowError
  else if sys_maxsize / 8 <? n then Raise MemoryError
  else Return (replicate (Z.to_nat n) x).

(** [sys.get_int_max_str_digits()]: [str(n)], [format] and f-strings
    write an [int] in decimal only if it has at most that many digits,
    and raise [ValueError] for a longer one. *)
Definition int_max_str_digits : Z := 4300.

(** The least absolute value with more digits than that. *)
Definition int_str_bound : Z := 10 ^ int_max_str_digits.

End Py.

Import Py.

(** ** [sanitize] *)

(** [BF_CHARS = set("+-<>[],.")] *)
Definition BF_CHARS : gset Z := list_to_set (lit "+-<>[],.").

(** ["".join(c for c in program if c in BF_CHARS)] *)
Definition sanitize (program : str) : str :=
  join ((fun c => [c]) <$> filter (fun c => c ∈ BF_CHARS) program).

(** ** [build_bracket_map] *)

(** The body of [for pos, ch in enumerate(program)], from position [pos]
    on.  [stack] is the Python list with its last element (the one
    [pop()] and [stack[-1]] take) at the head.  A [raise] leaves the
    loop at once. *)
Fixpoint scan_brackets (pos : nat) (program : str)
    (stack : list nat) (bracket_map : gmap nat nat)
  : outcome (list nat * gmap nat nat) :=
  match program with
  | [] => Return (stack, bracket_map)
  | c :: rest =>
      if c =? ch "[" then
        scan_brackets (S pos) rest (pos :: stack) bracket_map
      else if c =? ch "]" then
        match stack with
        | [] => Raise (SyntaxError_UnmatchedClose pos)
        | start :: stack' =>
            scan_brackets (S pos) rest stack'
              (<[pos := start]> (<[start := pos]> bracket_map))
        end
      else scan_brackets (S pos) rest stack bracket_map
  end.

Definition build_bracket_map (program : str) : outcome (gmap nat nat) :=
  '(stack, bracket_map) ← scan_brackets 0 program [] ∅;
  match stack with
  | top :: _ => Raise (SyntaxError_UnmatchedOpen top)
  | [] => Return bracket_map
  end.

(** ** [BrainfuckInterpreter] *)

(** The attributes of [self]. *)
Record Interp := mkInterp {
  tape : list Z;
  ptr : Z;
  max_steps : Z
}.

(** [__init__(self, tape_size, max_steps)] *)
Definition init (tape_size max_steps : Z) : outcome Interp :=
  if tape_size <=? 0 then Raise ValueError_TapeSize
  else
    cells ← repeat_item 0 tape_size;
    Return {| tape := cells; ptr := 0; max_steps := max_steps |}.

Definition default_tape_size : Z := 30000.
Definition default_max_steps : Z := 2000000.

(** The local variables of [run] that the loop updates. *)
Record Locals := mkLocals {
  ip : nat;
  steps : Z;
  out_chars : list str;
  in_idx : nat
}.

Definition set_ptr (p : Z) (self : Interp) : Interp :=
  {| tape := tape self; ptr := p; max_steps := max_steps self |}.

Definition set_tape (t : list Z) (self : Interp) : Interp :=
  {| tape := t; ptr := ptr self; max_steps := max_steps self |}.

Definition set_ip (i : nat) (l : Locals) : Locals :=
  {| ip := i; steps := steps l; out_chars := out_chars l; in_idx := in_idx l |}.

Definition set_steps (n : Z) (l : Locals) : Locals :=
  {| ip := ip l; steps := n; out_chars := out_chars l; in_idx := in_idx l |}.

Definition set_out_chars (o : list str) (l : Locals) : Locals :=
  {| ip := ip l; steps := steps l; out_chars := o; in_idx := in_idx l |}.

Definition set_in_idx (i : nat) (l : Locals) : Locals :=
  {| ip := ip l; steps := steps l; out_chars := out_chars l; in_idx := i |}.

(** What [raise RuntimeError(f"Max steps superado ({self.max_steps}). ...")]
    raises.  The f-string is evaluated first: when [max_steps] has too
    many digits to be written, that raises [ValueError] and no
    [RuntimeError] is built. *)
Definition max_steps_error (limit : Z) : exn :=
  if Z.abs limit <? int_str_bound then RuntimeError_MaxSteps limit
  else ValueError_IntMaxStrDigits.

Section Run.

(** What the loop reads and never writes: the sanitized program, its
    bracket map, the input buffer and [tape_len = len(self.tape)]. *)
Variable program : str.
Variable bracket_map : gmap nat nat.
Variable inbuf : str.
Variable tape_len : Z.

(** The [if]/[elif] chain on [cmd], without the final [ip += 1]. *)
Definition dispatch (cmd : Z) (self : Interp) (l : Locals)
  : outcome (Interp * Locals) :=
  if cmd =? ch ">" then
    let p := ptr self + 1 in
    Return (set_ptr (if p >=? tape_len then 0 else p) self, l)
  else if cmd =? ch "<" then
    let p := ptr self - 1 in
    Return (set_ptr (if p <? 0 then tape_len - 1 else p) self, l)
  else if cmd =? ch "+" then
    v ← or_raise (getitem (tape self) (ptr self)) IndexError;
    t ← or_raise (setitem (tape self) (ptr self) ((v + 1) mod 256)) IndexError;
    Return (set_tape t self, l)
  else if cmd =? ch "-" then
    v ← or_raise (getitem (tape self) (ptr self)) IndexError;
    t ← or_raise (setitem (tape self) (ptr self) ((v - 1) mod 256)) IndexError;
    Return (set_tape t self, l)
  else if cmd =? ch "." then
    v ← or_raise (getitem (tape self) (ptr self)) IndexError;
    s ← chr v;
    Return (self, set_out_chars (out_chars l ++ [s]) l)
  else if cmd =? ch "," then
    if (in_idx l <? length inbuf)%nat then
      c ← or_raise (inbuf !! in_idx l) IndexError;
      t ← or_raise (setitem (tape self) (ptr self) (ord c)) IndexError;
      Return (set_tape t self, set_in_idx (S (in_idx l)) l)
    else
      t ← or_raise (setitem (tape self) (ptr self) 0) IndexError;
      Return (set_tape t self, l)
  else if cmd =? ch "[" then
    v ← or_raise (getitem (tape self) (ptr self)) IndexError;
    if v =? 0 then
      target ← or_raise (bracket_map !! ip l) (KeyError (ip l));
      Return (self, set_ip target l)
    else Return (self, l)
  else if cmd =? ch "]" then
    v ← or_raise (getitem (tape self) (ptr self)) IndexError;
    if negb (v =? 0) then
      target ← or_raise (bracket_map !! ip l) (KeyError (ip l));
      Return (self, set_ip target l)
    else Return (self, l)
  else Return (self, l).

(** One pass through the loop body after the step check:
    [steps += 1; cmd = program[ip]; ...; ip += 1]. *)
Definition exec_instr (self : Interp) (l : Locals) : outcome (Interp * Locals) :=
  let l := set_steps (steps l + 1) l in
  cmd ← or_raise (program !! ip l) IndexError;
  '(self', l') ← dispatch cmd self l;
  Return (self', set_ip (S (ip l')) l').

(** [while ip < len(program): ...; return "".join(out_chars)].  The
    result pairs [self] as the call leaves it with what the call
    returns or raises; [None] only when [fuel] iterations were not
    enough. *)
Fixpoint loop (fuel : nat) (self : Interp) (l : Locals)
  : option (Interp * outcome str) :=
  match fuel with
  | O => None
  | S fuel' =>
      if (ip l <? length program)%nat then
        if steps l >=? max_steps self then
          Some (self, Raise (max_steps_error (max_steps self)))
        else
          match exec_instr self l with
          | Raise e => Some (self, Raise e)
          | Return (self', l') => loop fuel' self' l'
          end
      else Some (self, Return (join (out_chars l)))
  end.

End Run.

Definition initial_locals : Locals :=
  {| ip := 0; steps := 0; out_chars := []; in_idx := 0 |}.

(** Every pass that does not leave the loop adds one to [steps], and the
    pass that finds [steps >= max_steps] leaves it, so the body runs at
    most [max_steps + 1] times (see [run_total]). *)
Definition run_fuel (self : Interp) : nat := S (Z.to_nat (max_steps self)).

(** [run(self, program, inbuf)] *)
Definition run (self : Interp) (program inbuf : str)
  : option (Interp * outcome str) :=
  let program := sanitize program in
  match build_bracket_map program with
  | Raise e => Some (self, Raise e)
  | Return bracket_map =>
      loop program bracket_map inbuf (Z.of_nat (length (tape self)))
           (run_fuel self) self initial_locals
  end.

(** ** [main] *)

Module Cli.

(** The namespace [parser.parse_args(argv)] returns; [argparse] itself is
    library code.  [file] and [program] are [None] when the option was
    not given. *)
Record Args := mkArgs {
  file : option str;
  program : option str;
  input : str;
  tape_size : Z;
  max_steps : Z;
  no_sanitize : bool
}.

(** Exceptions that leave [main].  [open] and [read] are called before
    the [try] statement, so whatever they raise for the path leaves
    [main]: [OSError] for a file that cannot be opened or read,
    [ValueError] for a path with a NUL character, [UnicodeEncodeError]
    for one the file system encoding cannot express.  From inside the
    [try] statement, what the [except] clause does not name. *)
Inductive uncaught :=
  | Raised_by_open (path : str)
  | Uncaught (e : exn).

(** How a call of [main] ends: it returns the exit code, with what it
    wrote to [sys.stdout] and [sys.stderr], or an exception propagates. *)
Inductive result :=
  | Exit (code : Z) (stdout stderr : str)
  | Propagates (e : uncaught).

(** [f"{n}"] for an [int]. *)
Definition str_of_int (n : Z) : str := lit (pretty n).

(** [str(e)] for the exceptions [except (SyntaxError, RuntimeError,
    ValueError)] catches; [None] for the ones it lets through
    ([IndexError] and [KeyError] are [LookupError]s, [OverflowError] is
    an [ArithmeticError], and [MemoryError] stands by itself). *)
Definition caught (e : exn) : option str :=
  match e with
  | SyntaxError_UnmatchedClose pos =>
      Some (lit "Unmatched ']' en posici" ++ [243] ++ lit "n "
              ++ str_of_int (Z.of_nat pos))
  | SyntaxError_UnmatchedOpen pos =>
      Some (lit "Unmatched '[' en posici" ++ [243] ++ lit "n "
              ++ str_of_int (Z.of_nat pos))
  | RuntimeError_MaxSteps limit =>
      Some (lit "Max steps superado (" ++ str_of_int limit ++ lit "). "
              ++ lit "Puede haber un bucle infinito. Usa --max-steps para ampliar.")
  | ValueError_TapeSize => Some (lit "tape_size debe ser > 0")
  | ValueError_Chr => Some (lit "chr() arg not in range(0x110000)")
  | ValueError_IntMaxStrDigits =>
      Some (lit "Exceeds the limit (4300 digits) for integer string conversion"
              ++ lit "; use sys.set_int_max_str_digits() to increase the limit")
  | OverflowError => None
  | MemoryError => None
  | IndexError => None
  | KeyError _ => None
  end.

(** [f"[bf_tool] Error: {e}\n"] *)
Definition error_line (msg : str) : str :=
  lit "[bf_tool] Error: " ++ msg ++ [10].

(** A string option in a condition: [None] and [""] are false. *)
Definition truthy (s : option str) : bool :=
  match s with
  | Some (_ :: _) => true
  | _ => false
  end.

Section Environment.

(** [open(path, "r", encoding="utf-8", errors="replace").read()]: the
    decoded text, [None] when [open] or [read] raises. *)
Variable read_file : str → option str.

(** The encoder of [sys.stdout]: [None] when it accepts the text,
    [Some msg] when [write] raises [UnicodeEncodeError], a [ValueError],
    with message [msg]. *)
Variable encode_error : str → option str.

(** The [except] clause. *)
Definition handle (e : exn) : result :=
  match caught e with
  | Some msg => Exit 1 [] (error_line msg)
  | None => Propagates (Uncaught e)
  end.

(** The [try] block on the program text. *)
Definition try_run (args : Args) (program : str) : option result :=
  match init (tape_size args) (max_steps args) with
  | Raise e => Some (handle e)
  | Return interp =>
      match run interp program (input args) with
      | None => None
      | Some (_, Raise e) => Some (handle e)
      | Some (_, Return output) =>
          match encode_error output with
          | Some msg => Some (Exit 1 [] (error_line msg))
          | None => Some (Exit 0 output [])
          end
      end
  end.

(** [main(argv)] from [args = parser.parse_args(argv)] on.  [None] only
    if [run] was out of fuel. *)
Definition main (args : Args) : option result :=
  let loaded :=
    if truthy (file args) then
      match file args with
      | Some path => read_file path
      | None => None
      end
    else Some (default [] (program args)) in
  match loaded with
  | None => Some (Propagates (Raised_by_open (default [] (file args))))
  | Some program =>
      let program :=
        if negb (no_sanitize args) then sanitize program else program in
      try_run args program
  end.

End Environment.

End Cli.

(** ** Notions the properties are stated with *)

(** The eight command characters, spelled out. *)
Definition is_command (c : Z) : Prop :=
  c = ch "+" ∨ c = ch "-" ∨ c = ch "<" ∨ c = ch ">" ∨
  c = ch "[" ∨ c = ch "]" ∨ c = ch "." ∨ c = ch ",".

Definition is_bracket_at (program : str) (p : nat) : Prop :=
  program !! p = Some (ch "[") ∨ program !! p = Some (ch "]").

(** [n] passes through the loop body, without the step check. *)
Fixpoint exec_many (program : str) (bracket_map : gmap nat nat) (inbuf : str)
    (tape_len : Z) (n : nat) (self : Interp) (l : Locals)
  : outcome (Interp * Locals) :=
  match n with
  | O => Return (self, l)
  | S n' =>
      '(self', l') ← exec_instr program bracket_map inbuf tape_len self l;
      exec_many program bracket_map inbuf tape_len n' self' l'
  end.

(** The cell under the cursor, as the loop reads it. *)
Definition current_cell (self : Interp) : option Z :=
  getitem (tape self) (ptr self).

Definition cursor_in_range (self : Interp) : Prop :=
  0 <= ptr self < Z.of_nat (length (tape self)).

Definition cells_below (bound : Z) (self : Interp) : Prop :=
  Forall (fun v => 0 <= v < bound) (tape self).

Definition cells_are_bytes (self : Interp) : Prop := cells_below 256 self.

(** The state of an interpreter that was constructed and then only
    touched by [run], on inputs that are Python strings. *)
Definition well_formed (self : Interp) : Prop :=
  cursor_in_range self ∧ Forall valid_codepoint (tape self).

(** The outcomes the caller of [run] is prepared for: the output, the
    two bracket errors (nothing was executed), the step limit and, only
    for a limit too long to be written, the [ValueError] of writing
    it. *)
Definition classified (self self' : Interp) (r : outcome str) : Prop :=
  match r with
  | Return _ => True
  | Raise (SyntaxError_UnmatchedClose _)
  | Raise (SyntaxError_UnmatchedOpen _) => self' = self
  | Raise (RuntimeError_MaxSteps limit) => limit = max_steps self
  | Raise ValueError_IntMaxStrDigits => int_str_bound <= Z.abs (max_steps self)
  | Raise _ => False
  end.

(** The number of [[] and []] characters of a text. *)
Definition count_brackets (program : str) : nat :=
  length (filter (fun c => c = ch "[" ∨ c = ch "]") program).

(** A bracket map is symmetric when partners point at each other. *)
Definition symmetric_map (bracket_map : gmap nat nat) : Prop :=
  ∀ p q, bracket_map !! p = Some q → bracket_map !! q = Some p.

(** Positions on the stack, most recent first, strictly decrease. *)
Fixpoint decreasing (stack : list nat) : Prop :=
  match stack with
  | [] => True
  | top :: below => Forall (fun p => (p < top)%nat) below ∧ decreasing below
  end.

(** What holds of the scanner's variables when the first [pos] characters
    of [program] have been read. *)
Record scan_inv (program : str) (pos : nat)
    (stack : list nat) (bracket_map : gmap nat nat) : Prop := {
  inv_covered : ∀ p,
    is_Some (bracket_map !! p) ∨ p ∈ stack ↔ (p < pos)%nat ∧ is_bracket_at program p;
  inv_open : ∀ p,
    p ∈ stack → program !! p = Some (ch "[") ∧ bracket_map !! p = None;
  inv_decreasing : decreasing stack;
  inv_symmetric : symmetric_map bracket_map;
  inv_pairs : ∀ p q,
    bracket_map !! p = Some q → (p < q)%nat →
    program !! p = Some (ch "[") ∧ program !! q = Some (ch "]");
  inv_count :
    (size bracket_map + length stack)%nat = count_brackets (take pos program)
}.

(** C1 as the specification words it: a taken []] leaves the instruction
    pointer on its matching [[]. *)
Definition close_jump_lands_on_open : Prop :=
  ∀ program bracket_map inbuf tape_len self l self' l' v p,
    build_bracket_map program = Return bracket_map →
    program !! ip l = Some (ch "]") →
    current_cell self = Some v → v ≠ 0 →
    bracket_map !! ip l = Some p →
    exec_instr program bracket_map inbuf tape_len self l = Return (self', l') →
    ip l' = p.

(** Two calls of [run] on the same object: the second call works on
    [self] as the first one left it. *)
Definition run_twice (self : Interp) (program1 inbuf1 program2 inbuf2 : str)
  : option (Interp * outcome str * outcome str) :=
  match run self program1 inbuf1 with
  | None => None
  | Some (self1, r1) =>
      match run self1 program2 inbuf2 with
      | None => None
      | Some (self2, r2) => Some (self2, r1, r2)
      end
  end.

(** How often the character [c] occurs in a text. *)
Definition count_char (c : Z) (program : str) : nat :=
  length (filter (fun x => x = c) program).

(** Balanced brackets: no prefix closes more than it opened, and the
    whole text closes all it opened. *)
Definition balanced (program : str) : Prop :=
  (∀ k, (count_char (ch "]") (take k program)
         ≤ count_char (ch "[") (take k program))%nat) ∧
  count_char (ch "[") program = count_char (ch "]") program.

(** Two pairs of a bracket map never cross: a pair that opens inside
    another one closes inside it. *)
Definition properly_nested (bracket_map : gmap nat nat) : Prop :=
  ∀ p q p' q',
    bracket_map !! p = Some q → bracket_map !! p' = Some q' →
    (p < q)%nat → (p' < q')%nat → (p < p')%nat → (p' < q)%nat →
    (q' < q)%nat.

(** While scanning, no position still on the stack lies inside a pair
    already made. *)
Definition stack_outside (stack : list nat) (bracket_map : gmap nat nat) : Prop :=
  ∀ p q s,
    bracket_map !! p = Some q → (p < q)%nat → s ∈ stack →
    (s < p)%nat ∨ (q < s)%nat.

(** The interpreter with another step limit: what [__init__] would have
    built from another [max_steps], or an assignment to the attribute. *)
Definition set_max_steps (limit : Z) (self : Interp) : Interp :=
  {| tape := tape self; ptr := ptr self; max_steps := limit |}.

(** The interpreter after [self.tape[self.ptr] = x]. *)
Definition write_cell (x : Z) (self : Interp) : Interp :=
  set_tape (<[Z.to_nat (ptr self) := x]> (tape self)) self.

(** A text without brackets. *)
Definition loop_free (program : str) : Prop :=
  Forall (fun c => c ≠ ch "[" ∧ c ≠ ch "]") program.

(** ** The sanitizer *)

Lemma sanitize_filter program :
  sanitize program = filter (fun c => c ∈ BF_CHARS) program.
Proof.
  unfold sanitize, join.
  induction (filter _ program) as [|c l IH]; [done|].
  cbn. by rewrite IH.
Qed.

Lemma BF_CHARS_spec c : c ∈ BF_CHARS ↔ is_command c.
Proof.
  unfold BF_CHARS, is_command. rewrite elem_of_list_to_set.
  cbn. rewrite !elem_of_cons, elem_of_nil. unfold ch; cbn. tauto.
Qed.

Lemma sanitize_cons c program :
  sanitize (c :: program) =
  if decide (c ∈ BF_CHARS) then c :: sanitize program else sanitize program.
Proof. rewrite !sanitize_filter. reflexivity. Qed.

Lemma sanitize_app s1 s2 : sanitize (s1 ++ s2) = sanitize s1 ++ sanitize s2.
Proof. rewrite !sanitize_filter. apply filter_app. Qed.

Lemma sanitize_commands program : Forall is_command (sanitize program).
Proof.
  rewrite sanitize_filter. apply Forall_forall.
  intros c [Hc _]%list_elem_of_filter. by apply BF_CHARS_spec.
Qed.

Lemma sanitize_fixpoint program :
  Forall is_command program → sanitize program = program.
Proof.
  induction 1 as [|c l Hc _ IH]; [done|].
  rewrite sanitize_cons, decide_True by (by apply BF_CHARS_spec). by rewrite IH.
Qed.

Lemma sanitize_mono t s :
  t `sublist_of` s → sanitize t `sublist_of` sanitize s.
Proof.
  induction 1 as [|c t s _ IH|c t s _ IH].
  - done.
  - rewrite !sanitize_cons. case_decide; [by apply sublist_skip|done].
  - rewrite sanitize_cons. case_decide; [by apply sublist_cons|done].
Qed.

(** C9. For every text [s], [sanitize s] is the subsequence of [s] made of
    its command characters ([+ - < > [ ] . ,]), in their original order:
    it is a subsequence of [s], holds command characters only, and every
    subsequence of [s] made of command characters is a subsequence of it
    (so nothing from the alphabet is dropped).  It is a total function and
    it is idempotent. *)
Theorem sanitize_spec (s : str) :
  sanitize s `sublist_of` s ∧
  Forall is_command (sanitize s) ∧
  (∀ t, t `sublist_of` s → Forall is_command t → t `sublist_of` sanitize s) ∧
  sanitize (sanitize s) = sanitize s.
Proof.
  split_and!.
  - rewrite sanitize_filter. apply sublist_filter.
  - apply sanitize_commands.
  - intros t Hts Ht. rewrite <- (sanitize_fixpoint t Ht). by apply sanitize_mono.
  - apply sanitize_fixpoint, sanitize_commands.
Qed.

Lemma sanitize_spec_witness :
  lit "+." `sublist_of` lit "<a+b." ∧
  Forall is_command (lit "+.") ∧
  lit "+." `sublist_of` sanitize (lit "<a+b.").
Proof.
  assert (lit "+." `sublist_of` lit "<a+b.") as Hsub.
  { apply sublist_cons, sublist_cons, sublist_skip, sublist_cons,
      sublist_skip, sublist_nil. }
  assert (Forall is_command (lit "+.")) as Hcmd.
  { repeat constructor; unfold is_command; tauto. }
  split_and!; [done..|].
  by apply (proj1 (proj2 (proj2 (sanitize_spec (lit "<a+b."))))).
Defined.

(** C7 (as stated, refuted).  The text ["<!--++>-->"] does not sanitize
    to ["++>-->"]. *)
Lemma sanitize_html_comment_not_stripped :
  sanitize (lit "<!--++>-->") ≠ lit "++>-->".
Proof. vm_compute. discriminate. Qed.

(** C7 (amended).  Applying the sanitizer to ["<!--++>-->"] yields
    ["<--++>-->"]: only the [!] is dropped, the comment delimiters
    [<], [-] and [>] are command characters themselves and survive. *)
Theorem sanitize_html_comment :
  sanitize (lit "<!--++>-->") = lit "<--++>-->".
Proof. vm_compute. reflexivity. Qed.

(** ** The bracket matcher *)

Section Scanner.

Variable program : str.

Lemma count_brackets_take_S pos c :
  program !! pos = Some c →
  count_brackets (take (S pos) program) =
  (count_brackets (take pos program) +
   if decide (c = ch "[" ∨ c = ch "]") then 1 else 0)%nat.
Proof.
  intros Hc. unfold count_brackets. rewrite (take_S_r _ _ _ Hc).
  rewrite (filter_app (fun c => c = ch "[" ∨ c = ch "]")), length_app.
  f_equal. cbn -[ch]. by case_decide.
Qed.

Lemma scan_inv_start : scan_inv program 0 [] ∅.
Proof.
  split.
  - intros p. rewrite lookup_empty, elem_of_nil. split.
    + intros [[? ?]|[]]. discriminate.
    + intros [? _]. lia.
  - intros p []%elem_of_nil.
  - exact I.
  - intros p q. by rewrite lookup_empty.
  - intros p q. by rewrite lookup_empty.
  - by rewrite take_0.
Qed.

Lemma scan_inv_below pos stack bracket_map p :
  scan_inv program pos stack bracket_map → p ∈ stack → (p < pos)%nat.
Proof. intros Hinv Hp. apply (inv_covered _ _ _ _ Hinv p). by right. Qed.

Lemma scan_inv_key_below pos stack bracket_map p :
  scan_inv program pos stack bracket_map →
  is_Some (bracket_map !! p) → (p < pos)%nat.
Proof. intros Hinv Hp. apply (inv_covered _ _ _ _ Hinv p). by left. Qed.

Lemma scan_inv_fresh pos stack bracket_map :
  scan_inv program pos stack bracket_map → bracket_map !! pos = None.
Proof.
  intros Hinv. destruct (bracket_map !! pos) eqn:E; [|done].
  pose proof (scan_inv_key_below _ _ _ pos Hinv) as Hlt.
  rewrite E in Hlt. specialize (Hlt (mk_is_Some _ _ eq_refl)). lia.
Qed.

(** [stack.append(pos)] on [[]. *)
Lemma scan_inv_open pos stack bracket_map :
  program !! pos = Some (ch "[") →
  scan_inv program pos stack bracket_map →
  scan_inv program (S pos) (pos :: stack) bracket_map.
Proof.
  intros Hc Hinv. split.
  - intros p. rewrite elem_of_cons.
    pose proof (inv_covered _ _ _ _ Hinv p) as Hcov.
    unfold is_bracket_at in *. split.
    + intros [Hk|[->|Hs]].
      * destruct Hcov as [Hcov _]. specialize (Hcov (or_introl Hk)).
        split; [lia|tauto].
      * split; [lia|by left].
      * destruct Hcov as [Hcov _]. specialize (Hcov (or_intror Hs)).
        split; [lia|tauto].
    + intros [Hlt Hb]. destruct (decide (p = pos)) as [->|Hne]; [tauto|].
      destruct Hcov as [_ Hcov].
      destruct Hcov as [?|?]; [split; [lia|done]|tauto|tauto].
  - intros p [->|Hp]%elem_of_cons.
    + split; [done|]. by eapply scan_inv_fresh.
    + by apply (inv_open _ _ _ _ Hinv).
  - split; [|apply (inv_decreasing _ _ _ _ Hinv)].
    apply Forall_forall. intros p Hp. by eapply scan_inv_below.
  - apply (inv_symmetric _ _ _ _ Hinv).
  - apply (inv_pairs _ _ _ _ Hinv).
  - rewrite (count_brackets_take_S _ _ Hc), decide_True by by left.
    pose proof (inv_count _ _ _ _ Hinv). cbn. lia.
Qed.

(** A character that is no bracket leaves the variables alone. *)
Lemma scan_inv_skip pos stack bracket_map c :
  program !! pos = Some c → c ≠ ch "[" → c ≠ ch "]" →
  scan_inv program pos stack bracket_map →
  scan_inv program (S pos) stack bracket_map.
Proof.
  intros Hc Ho Hcl Hinv. split.
  - intros p. pose proof (inv_covered _ _ _ _ Hinv p) as Hcov.
    split.
    + intros Hk. apply Hcov in Hk as [? ?]. split; [lia|done].
    + intros [Hlt Hb]. apply Hcov. split; [|done].
      destruct (decide (p = pos)) as [->|Hne]; [|lia].
      destruct Hb as [Hb|Hb]; rewrite Hc in Hb; congruence.
  - apply (inv_open _ _ _ _ Hinv).
  - apply (inv_decreasing _ _ _ _ Hinv).
  - apply (inv_symmetric _ _ _ _ Hinv).
  - apply (inv_pairs _ _ _ _ Hinv).
  - rewrite (count_brackets_take_S _ _ Hc), decide_False by tauto.
    pose proof (inv_count _ _ _ _ Hinv). lia.
Qed.

(** [start = stack.pop(); bracket_map[start] = pos; bracket_map[pos] = start]
    on []]. *)
Lemma scan_inv_close pos start stack bracket_map :
  program !! pos = Some (ch "]") →
  scan_inv program pos (start :: stack) bracket_map →
  scan_inv program (S pos) stack (<[pos := start]> (<[start := pos]> bracket_map)).
Proof.
  intros Hc Hinv.
  assert (start < pos)%nat as Hlt
    by (eapply scan_inv_below; [done|by left]).
  destruct (inv_open _ _ _ _ Hinv start) as [Hstart Hfree]; [by left|].
  pose proof (scan_inv_fresh _ _ _ Hinv) as Hfresh.
  destruct (inv_decreasing _ _ _ _ Hinv) as [Hbelow Hdec].
  rewrite Forall_forall in Hbelow.
  split.
  - intros p. pose proof (inv_covered _ _ _ _ Hinv p) as Hcov.
    rewrite elem_of_cons in Hcov. unfold is_bracket_at in *.
    rewrite !lookup_insert. repeat case_decide; subst.
    + split; [intros _; split; [lia|by right]|by left; eexists].
    + split; [intros _; split; [lia|by left]|by left; eexists].
    + split.
      * intros [Hk|Hs]; [|specialize (Hbelow _ Hs)];
          (destruct Hcov as [Hcov _]; destruct Hcov as [? ?];
           [tauto|split; [lia|done]]).
      * intros [Hp Hb]. destruct Hcov as [_ Hcov].
        destruct Hcov as [?|[?|?]]; [split; [lia|done]|tauto|done|tauto].
  - intros p Hp. specialize (Hbelow _ Hp).
    destruct (inv_open _ _ _ _ Hinv p) as [? ?]; [by right|].
    split; [done|]. rewrite !lookup_insert_ne by lia. done.
  - done.
  - intros p q. rewrite !lookup_insert.
    pose proof (inv_symmetric _ _ _ _ Hinv p q) as Hsym.
    destruct (decide (pos = p)) as [<-|Hp1].
    { intros [= <-]. rewrite decide_False by lia. by rewrite decide_True. }
    destruct (decide (start = p)) as [<-|Hp2].
    { intros [= <-]. by rewrite decide_True. }
    intros Hpq. specialize (Hsym Hpq).
    rewrite !decide_False; [done|congruence..].
  - intros p q. rewrite !lookup_insert.
    destruct (decide (pos = p)) as [<-|Hp1]; [intros [= <-]; lia|].
    destruct (decide (start = p)) as [<-|Hp2]; [by intros [= <-]|].
    apply (inv_pairs _ _ _ _ Hinv).
  - rewrite (count_brackets_take_S _ _ Hc), decide_True by by right.
    pose proof (inv_count _ _ _ _ Hinv) as Hn. cbn in Hn.
    rewrite !map_size_insert_None; [lia|done|].
    rewrite lookup_insert_ne by lia. done.
Qed.

(** The scanner keeps the invariant to the end of the program. *)
Lemma scan_brackets_inv rest : ∀ pos stack bracket_map stack' bracket_map',
  drop pos program = rest →
  scan_inv program pos stack bracket_map →
  scan_brackets pos rest stack bracket_map = Return (stack', bracket_map') →
  scan_inv program (length program) stack' bracket_map'.
Proof.
  induction rest as [|c rest IH]; intros pos stack bm stack' bm' Hdrop Hinv.
  - cbn. intros [= <- <-].
    assert (length program ≤ pos)%nat as Hle.
    { by apply drop_nil_inv. }
    destruct Hinv as [Hcov ? ? ? ? Hn]. split; try done.
    + intros p. rewrite Hcov. unfold is_bracket_at. split.
      * intros [_ Hb]. split; [|done].
        destruct Hb as [Hb|Hb]; by apply lookup_lt_Some in Hb.
      * intros [? ?]. split; [lia|done].
    + by rewrite take_ge in Hn |- * by lia.
  - assert (program !! pos = Some c) as Hc.
    { pose proof (lookup_drop program pos 0) as Hl.
      by rewrite Hdrop, Nat.add_0_r in Hl. }
    assert (drop (S pos) program = rest) as Hdrop'.
    { pose proof (drop_drop program 1 pos) as Hd.
      by rewrite Hdrop, Nat.add_1_r in Hd. }
    cbn -[ch]. destruct (Z.eqb_spec c (ch "[")) as [->|Ho].
    { apply IH; [done|]. by apply scan_inv_open. }
    destruct (Z.eqb_spec c (ch "]")) as [->|Hcl].
    { destruct stack as [|start stack]; [done|].
      apply IH; [done|]. by apply scan_inv_close. }
    apply IH; [done|]. by eapply scan_inv_skip.
Qed.

End Scanner.

Lemma scan_brackets_app a : ∀ b pos stack bracket_map,
  scan_brackets pos (a ++ b) stack bracket_map =
  '(stack', bracket_map') ← scan_brackets pos a stack bracket_map;
  scan_brackets (pos + length a) b stack' bracket_map'.
Proof.
  induction a as [|c a IH]; intros b pos stack bm.
  - cbn. by rewrite Nat.add_0_r.
  - cbn -[ch]. replace (pos + S (length a))%nat with (S pos + length a)%nat by lia.
    destruct (c =? ch "["); [apply IH|].
    destruct (c =? ch "]"); [|apply IH].
    destruct stack; [done|apply IH].
Qed.

(** The scanner only ever raises for a []] met with an empty stack, at
    the position of that []]. *)
Lemma scan_brackets_raise program : ∀ pos stack bracket_map e,
  scan_brackets pos program stack bracket_map = Raise e →
  ∃ pre rest bracket_map',
    program = pre ++ ch "]" :: rest ∧
    scan_brackets pos pre stack bracket_map = Return ([], bracket_map') ∧
    e = SyntaxError_UnmatchedClose (pos + length pre).
Proof.
  induction program as [|c program IH]; intros pos stack bm e; [done|].
  cbn -[ch]. destruct (Z.eqb_spec c (ch "[")) as [->|Ho].
  { intros (pre & rest & bm' & -> & Hpre & ->)%IH.
    exists (ch "[" :: pre), rest, bm'. split_and!; [done| |f_equal; cbn; lia].
    cbn -[ch]. by rewrite Z.eqb_refl. }
  destruct (Z.eqb_spec c (ch "]")) as [->|Hcl].
  { destruct stack as [|start stack].
    - intros [= <-]. exists [], program, bm.
      split_and!; [done..|f_equal; cbn; lia].
    - intros (pre & rest & bm' & -> & Hpre & ->)%IH.
      exists (ch "]" :: pre), rest, bm'. split_and!; [done| |f_equal; cbn; lia].
      cbn -[ch]. done. }
  intros (pre & rest & bm' & -> & Hpre & ->)%IH.
  exists (c :: pre), rest, bm'. split_and!; [done| |f_equal; cbn; lia].
  cbn -[ch]. destruct (Z.eqb_spec c (ch "[")); [done|].
  by destruct (Z.eqb_spec c (ch "]")).
Qed.

Lemma scan_brackets_end program stack bracket_map :
  scan_brackets 0 program [] ∅ = Return (stack, bracket_map) →
  scan_inv program (length program) stack bracket_map.
Proof.
  intros Hscan. eapply (scan_brackets_inv program program 0); [done| |done].
  apply scan_inv_start.
Qed.

Lemma build_bracket_map_Return program bracket_map :
  build_bracket_map program = Return bracket_map ↔
  scan_brackets 0 program [] ∅ = Return ([], bracket_map).
Proof.
  unfold build_bracket_map.
  destruct (scan_brackets 0 program [] ∅) as [[[|top stack] bm]|e]; cbn;
    split; congruence.
Qed.

Lemma build_bracket_map_inv program bracket_map :
  build_bracket_map program = Return bracket_map →
  scan_inv program (length program) [] bracket_map.
Proof. by intros Hscan%build_bracket_map_Return%scan_brackets_end. Qed.

(** Every bracket of a matched program is a key of its map. *)
Lemma bracket_map_keys program bracket_map :
  build_bracket_map program = Return bracket_map →
  ∀ p, is_bracket_at program p → is_Some (bracket_map !! p).
Proof.
  intros Hinv%build_bracket_map_inv p Hp.
  assert (p < length program)%nat as Hlt
    by (destruct Hp as [Hp|Hp]; by apply lookup_lt_Some in Hp).
  destruct (proj2 (inv_covered _ _ _ _ Hinv p) (conj Hlt Hp)) as [?|Hs]; [done|].
  by apply elem_of_nil in Hs.
Qed.

(** C4. Bracket matching fails as specified.  A []] met with an empty
    stack raises [UnmatchedClose] with its position at once, whatever
    follows it.  After a full scan that leaves the stack non-empty,
    [UnmatchedOpen] is raised with the position on top of the stack, which
    is a [[] without partner and the most recently seen one (no
    unmatched [[] lies to its right).  These are the only failures, and
    ["[[]"] fails with [UnmatchedOpen] at position 0. *)
Theorem build_bracket_map_errors (program : str) :
  (∀ pre rest bracket_map,
     program = pre ++ ch "]" :: rest →
     scan_brackets 0 pre [] ∅ = Return ([], bracket_map) →
     build_bracket_map program =
       Raise (SyntaxError_UnmatchedClose (length pre))) ∧
  (∀ top stack bracket_map,
     scan_brackets 0 program [] ∅ = Return (top :: stack, bracket_map) →
     build_bracket_map program = Raise (SyntaxError_UnmatchedOpen top) ∧
     program !! top = Some (ch "[") ∧
     bracket_map !! top = None ∧
     (∀ p, program !! p = Some (ch "[") → bracket_map !! p = None →
           (p ≤ top)%nat)) ∧
  (∀ e, build_bracket_map program = Raise e →
     (∃ pre rest bracket_map,
        program = pre ++ ch "]" :: rest ∧
        scan_brackets 0 pre [] ∅ = Return ([], bracket_map) ∧
        e = SyntaxError_UnmatchedClose (length pre)) ∨
     (∃ top stack bracket_map,
        scan_brackets 0 program [] ∅ = Return (top :: stack, bracket_map) ∧
        e = SyntaxError_UnmatchedOpen top)) ∧
  build_bracket_map (lit "[[]") = Raise (SyntaxError_UnmatchedOpen 0).
Proof.
  split_and!.
  - intros pre rest bm -> Hpre. unfold build_bracket_map.
    rewrite scan_brackets_app, Hpre. cbn -[ch]. done.
  - intros top stack bm Hscan.
    pose proof (scan_brackets_end _ _ _ Hscan) as Hinv.
    destruct (inv_open _ _ _ _ Hinv top) as [Htop Hfree]; [by left|].
    split_and!; [|done..|].
    + unfold build_bracket_map. by rewrite Hscan.
    + intros p Hp Hnone.
      assert (is_Some (bm !! p) ∨ p ∈ top :: stack) as [[? Hk]|Hs].
      { apply (inv_covered _ _ _ _ Hinv p). split; [|by left].
        by apply lookup_lt_Some in Hp. }
      * congruence.
      * apply elem_of_cons in Hs as [->|Hs]; [done|].
        destruct (inv_decreasing _ _ _ _ Hinv) as [Hbelow _].
        rewrite Forall_forall in Hbelow. specialize (Hbelow _ Hs). lia.
  - intros e. unfold build_bracket_map.
    destruct (scan_brackets 0 program [] ∅) as [[[|top stack] bm]|e'] eqn:Hscan;
      cbn; [done| |].
    + intros [= <-]. right. by exists top, stack, bm.
    + intros [= <-]. left.
      apply scan_brackets_raise in Hscan as (pre & rest & bm & ? & ? & ?).
      by exists pre, rest, bm.
  - vm_compute. reflexivity.
Qed.

Lemma build_bracket_map_errors_witness :
  build_bracket_map (lit "[]]+") = Raise (SyntaxError_UnmatchedClose 2) ∧
  build_bracket_map (lit "[[[]") = Raise (SyntaxError_UnmatchedOpen 1).
Proof.
  split.
  - apply (proj1 (build_bracket_map_errors (lit "[]]+"))
             (lit "[]") (lit "+") {[ 0%nat := 1%nat; 1%nat := 0%nat ]});
      vm_compute; reflexivity.
  - apply (proj1 (proj2 (build_bracket_map_errors (lit "[[[]")))
             1%nat [0%nat] {[ 2%nat := 3%nat; 3%nat := 2%nat ]}).
    vm_compute. reflexivity.
Defined.

(** C5. For every program on which the bracket matcher succeeds, the keys
    of the map are exactly the positions of the [[] and []] characters
    (as many keys as the program has brackets, so each position once),
    and the map is symmetric; a pair joins a [[] to a later []]. *)
Theorem build_bracket_map_spec (program : str) (bracket_map : gmap nat nat) :
  build_bracket_map program = Return bracket_map →
  (∀ p, p ∈ dom bracket_map ↔ is_bracket_at program p) ∧
  size bracket_map = count_brackets program ∧
  symmetric_map bracket_map ∧
  (∀ p q, bracket_map !! p = Some q → (p < q)%nat →
          program !! p = Some (ch "[") ∧ program !! q = Some (ch "]")).
Proof.
  intros Hmap. pose proof (build_bracket_map_inv _ _ Hmap) as Hscan.
  split_and!.
  - intros p. rewrite elem_of_dom. split; [|by apply bracket_map_keys].
    intros Hk. by apply (inv_covered _ _ _ _ Hscan p); left.
  - pose proof (inv_count _ _ _ _ Hscan) as Hn.
    rewrite take_ge in Hn by lia. cbn in Hn. lia.
  - apply (inv_symmetric _ _ _ _ Hscan).
  - apply (inv_pairs _ _ _ _ Hscan).
Qed.

Lemma build_bracket_map_spec_witness :
  build_bracket_map (lit "+[[]]") =
    Return {[ 1%nat := 4%nat; 4%nat := 1%nat; 2%nat := 3%nat; 3%nat := 2%nat ]} ∧
  size ({[ 1%nat := 4%nat; 4%nat := 1%nat; 2%nat := 3%nat; 3%nat := 2%nat ]}
          : gmap nat nat) = count_brackets (lit "+[[]]") ∧
  symmetric_map {[ 1%nat := 4%nat; 4%nat := 1%nat; 2%nat := 3%nat; 3%nat := 2%nat ]}.
Proof.
  assert (build_bracket_map (lit "+[[]]") =
            Return {[ 1%nat := 4%nat; 4%nat := 1%nat;
                      2%nat := 3%nat; 3%nat := 2%nat ]}) as Hmap
    by (vm_compute; reflexivity).
  split; [exact Hmap|].
  destruct (build_bracket_map_spec _ _ Hmap) as (_ & Hsize & Hsym & _).
  by split.
Defined.

(** ** The tape as a Python list *)

Lemma getitem_in_range {A} (l : list A) (i : Z) :
  0 <= i < Z.of_nat (length l) → is_Some (getitem l i).
Proof.
  intros Hi. unfold getitem.
  destruct (Z.leb_spec 0 i); [|lia]. apply lookup_lt_is_Some. lia.
Qed.

Lemma setitem_in_range {A} (l : list A) (i : Z) (x : A) :
  0 <= i < Z.of_nat (length l) →
  setitem l i x = Some (<[Z.to_nat i := x]> l).
Proof.
  intros Hi. unfold setitem.
  destruct (Z.leb_spec 0 i); [|lia].
  destruct (Z.ltb_spec i (Z.of_nat (length l))); [done|lia].
Qed.

Lemma setitem_length {A} (l l' : list A) (i : Z) (x : A) :
  setitem l i x = Some l' → length l' = length l.
Proof.
  unfold setitem. repeat case_match; intros [= <-]; apply length_insert.
Qed.

Lemma setitem_Forall {A} (P : A → Prop) (l l' : list A) (i : Z) (x : A) :
  setitem l i x = Some l' → P x → Forall P l → Forall P l'.
Proof.
  unfold setitem. intros Hset Hx Hl.
  repeat case_match; simplify_eq; by apply Forall_insert.
Qed.

(** ** One instruction *)

(** Turns the boolean comparisons among the hypotheses into propositions. *)
Ltac Z_tests :=
  repeat match goal with
         | H : (_ =? _) = true |- _ => apply Z.eqb_eq in H
         | H : (_ =? _) = false |- _ => apply Z.eqb_neq in H
         | H : (_ >=? _) = _ |- _ => rewrite Z.geb_leb in H
         | H : (_ <=? _) = true |- _ => apply Z.leb_le in H
         | H : (_ <=? _) = false |- _ => apply Z.leb_gt in H
         | H : (_ <? _) = true |- _ => apply Z.ltb_lt in H
         | H : (_ <? _) = false |- _ => apply Z.ltb_ge in H
         | H : negb _ = true |- _ => apply negb_true_iff in H
         | H : negb _ = false |- _ => apply negb_false_iff in H
         end.

(** Splits on every test and every possibly raising call of a loop-body
    pass that returned. *)
Ltac dispatch_cases :=
  unfold mbind, outcome_bind, or_raise in *;
  repeat (case_match; cbn -[ch getitem setitem chr Z.modulo] in *;
          simplify_eq; try done).

Section Instruction.

Variable program : str.
Variable bracket_map : gmap nat nat.
Variable inbuf : str.
Variable tape_len : Z.

(** The branches of the chain for the cell and the brackets. *)
Lemma dispatch_plus self l :
  dispatch bracket_map inbuf tape_len (ch "+") self l =
  v ← or_raise (current_cell self) IndexError;
  t ← or_raise (setitem (tape self) (ptr self) ((v + 1) mod 256)) IndexError;
  Return (set_tape t self, l).
Proof. reflexivity. Qed.

Lemma dispatch_minus self l :
  dispatch bracket_map inbuf tape_len (ch "-") self l =
  v ← or_raise (current_cell self) IndexError;
  t ← or_raise (setitem (tape self) (ptr self) ((v - 1) mod 256)) IndexError;
  Return (set_tape t self, l).
Proof. reflexivity. Qed.

Lemma dispatch_open self l :
  dispatch bracket_map inbuf tape_len (ch "[") self l =
  v ← or_raise (current_cell self) IndexError;
  if v =? 0 then
    target ← or_raise (bracket_map !! ip l) (KeyError (ip l));
    Return (self, set_ip target l)
  else Return (self, l).
Proof. reflexivity. Qed.

Lemma dispatch_close self l :
  dispatch bracket_map inbuf tape_len (ch "]") self l =
  v ← or_raise (current_cell self) IndexError;
  if negb (v =? 0) then
    target ← or_raise (bracket_map !! ip l) (KeyError (ip l));
    Return (self, set_ip target l)
  else Return (self, l).
Proof. reflexivity. Qed.

Lemma dispatch_frame cmd self l self' l' :
  dispatch bracket_map inbuf tape_len cmd self l = Return (self', l') →
  max_steps self' = max_steps self ∧
  length (tape self') = length (tape self) ∧
  steps l' = steps l.
Proof.
  unfold dispatch. intros Hd. dispatch_cases; split_and!; try done;
    by eapply setitem_length.
Qed.

Lemma dispatch_cursor cmd self l self' l' :
  tape_len = Z.of_nat (length (tape self)) →
  cursor_in_range self →
  dispatch bracket_map inbuf tape_len cmd self l = Return (self', l') →
  cursor_in_range self'.
Proof.
  unfold dispatch, cursor_in_range. intros -> Hc Hd.
  dispatch_cases;
    try (erewrite setitem_length by done; done);
    Z_tests; lia.
Qed.

(** Where the [if]/[elif] chain leaves [ip], before the final
    [ip += 1]: on the jump target when a bracket jumps, where it was
    otherwise. *)
Lemma dispatch_ip cmd self l self' l' :
  dispatch bracket_map inbuf tape_len cmd self l = Return (self', l') →
  (cmd = ch "[" ∧ current_cell self = Some 0 ∧
     bracket_map !! ip l = Some (ip l')) ∨
  (cmd = ch "]" ∧ (∃ v, current_cell self = Some v ∧ v ≠ 0) ∧
     bracket_map !! ip l = Some (ip l')) ∨
  (cmd = ch "[" ∧ (∃ v, current_cell self = Some v ∧ v ≠ 0) ∧ ip l' = ip l) ∨
  (cmd = ch "]" ∧ current_cell self = Some 0 ∧ ip l' = ip l) ∨
  (cmd ≠ ch "[" ∧ cmd ≠ ch "]" ∧ ip l' = ip l).
Proof.
  unfold dispatch, current_cell. intros Hd.
  repeat match goal with
         | H : context [?c =? ch ?a] |- _ =>
             destruct (Z.eqb_spec c (ch a)); [subst c|]
         end;
    try (do 4 right; dispatch_cases; fail).
  - dispatch_cases; Z_tests.
    + left. naive_solver.
    + do 2 right. left. naive_solver.
  - dispatch_cases; Z_tests.
    + right. left. naive_solver.
    + do 3 right. left. naive_solver.
  - do 4 right. by simplify_eq.
Qed.

Lemma exec_instr_inv self l self' l' :
  exec_instr program bracket_map inbuf tape_len self l = Return (self', l') →
  ∃ cmd l1,
    program !! ip l = Some cmd ∧
    dispatch bracket_map inbuf tape_len cmd self (set_steps (steps l + 1) l)
      = Return (self', l1) ∧
    l' = set_ip (S (ip l1)) l1.
Proof.
  unfold exec_instr. cbn -[dispatch]. intros He.
  destruct (program !! ip l) as [cmd|] eqn:Hcmd; cbn -[dispatch] in He; [|done].
  destruct (dispatch _ _ _ cmd self _) as [[self1 l1]|] eqn:Hd;
    cbn in He; [|done].
  simplify_eq. by exists cmd, l1.
Qed.

Lemma exec_instr_frame self l self' l' :
  exec_instr program bracket_map inbuf tape_len self l = Return (self', l') →
  max_steps self' = max_steps self ∧
  length (tape self') = length (tape self) ∧
  steps l' = steps l + 1 ∧
  (ip l < length program)%nat.
Proof.
  intros (cmd & l1 & Hcmd & Hd & ->)%exec_instr_inv.
  apply dispatch_frame in Hd as (? & ? & ?).
  split_and!; try done. by apply lookup_lt_Some in Hcmd.
Qed.

Lemma exec_instr_cursor self l self' l' :
  tape_len = Z.of_nat (length (tape self)) →
  cursor_in_range self →
  exec_instr program bracket_map inbuf tape_len self l = Return (self', l') →
  cursor_in_range self'.
Proof.
  intros Hlen Hc (cmd & l1 & Hcmd & Hd & ->)%exec_instr_inv.
  by eapply dispatch_cursor.
Qed.

End Instruction.

(** ** Writing the step limit *)

(** Every [int] of 64 bits can be written. *)
Lemma int_str_bound_large : 2 ^ 64 <= int_str_bound.
Proof.
  unfold int_str_bound, int_max_str_digits.
  transitivity (10 ^ 20); [by vm_compute|].
  apply Z.pow_le_mono_r; lia.
Qed.

Lemma int_str_bound_eq : int_str_bound = 10 ^ 4300.
Proof. reflexivity. Qed.

Lemma int_str_bound_small n : Z.abs n < 2 ^ 64 → Z.abs n < int_str_bound.
Proof. pose proof int_str_bound_large. lia. Qed.

Lemma max_steps_error_fits limit :
  Z.abs limit < int_str_bound →
  max_steps_error limit = RuntimeError_MaxSteps limit.
Proof.
  unfold max_steps_error. intros Hfits.
  by rewrite (proj2 (Z.ltb_lt _ _) Hfits).
Qed.



#[global] Opaque int_str_bound.

(** ** The dispatch loop *)

Section Loop.

Variable program : str.
Variable bracket_map : gmap nat nat.
Variable inbuf : str.
Variable tape_len : Z.

Local Abbreviation exec_instr := (exec_instr program bracket_map inbuf tape_len).
Local Abbreviation exec_many := (exec_many program bracket_map inbuf tape_len).
Local Abbreviation loop := (loop program bracket_map inbuf tape_len).

Lemma loop_S fuel self l :
  loop (S fuel) self l =
  if (ip l <? length program)%nat then
    if steps l >=? max_steps self then
      Some (self, Raise (max_steps_error (max_steps self)))
    else
      match exec_instr self l with
      | Raise e => Some (self, Raise e)
      | Return (self', l') => loop fuel self' l'
      end
  else Some (self, Return (join (out_chars l))).
Proof. reflexivity. Qed.

Lemma exec_many_S n self l self' l' :
  exec_many (S n) self l = Return (self', l') ↔
  ∃ self1 l1, exec_instr self l = Return (self1, l1) ∧
              exec_many n self1 l1 = Return (self', l').
Proof.
  cbn. destruct (exec_instr self l) as [[self1 l1]|e]; cbn.
  - split; [by exists self1, l1|]. by intros (? & ? & [= <- <-] & ?).
  - split; [done|]. by intros (? & ? & ? & ?).
Qed.

Lemma exec_many_add n m self l :
  exec_many (n + m) self l =
  '(self1, l1) ← exec_many n self l; exec_many m self1 l1.
Proof.
  revert self l. induction n as [|n IH]; intros self l; [done|].
  cbn. destruct (exec_instr self l) as [[self1 l1]|e]; cbn; [apply IH|done].
Qed.

Lemma exec_many_frame n : ∀ self l self' l',
  exec_many n self l = Return (self', l') →
  max_steps self' = max_steps self ∧
  length (tape self') = length (tape self) ∧
  steps l' = steps l + Z.of_nat n.
Proof.
  induction n as [|n IH]; intros self l self' l'.
  - intros [= <- <-]. split_and!; [done..|lia].
  - intros (self1 & l1 & (? & ? & ? & _)%exec_instr_frame
                        & (? & ? & ?)%IH)%exec_many_S.
    split_and!; [congruence..|lia].
Qed.

Lemma exec_many_cursor n : ∀ self l self' l',
  tape_len = Z.of_nat (length (tape self)) →
  cursor_in_range self →
  exec_many n self l = Return (self', l') →
  cursor_in_range self'.
Proof.
  induction n as [|n IH]; intros self l self' l' Hlen Hc.
  - by intros [= <- <-].
  - intros (self1 & l1 & He & Hn)%exec_many_S.
    pose proof (exec_instr_frame _ _ _ _ _ _ _ _ He) as (_ & Hl & _).
    eapply IH; [|by eapply exec_instr_cursor|done]. congruence.
Qed.

(** As long as the budget lasts, the loop does what [exec_many] does. *)
Lemma loop_exec_many n : ∀ fuel self l self' l',
  exec_many n self l = Return (self', l') →
  n = 0%nat ∨ steps l + Z.of_nat n <= max_steps self →
  loop (n + fuel) self l = loop fuel self' l'.
Proof.
  induction n as [|n IH]; intros fuel self l self' l'.
  - by intros [= <- <-].
  - intros (self1 & l1 & He & Hn)%exec_many_S [?|Hsteps]; [done|].
    pose proof (exec_instr_frame _ _ _ _ _ _ _ _ He) as (Hm & _ & Hs & Hip).
    rewrite Nat.add_succ_l, loop_S, (proj2 (Nat.ltb_lt _ _) Hip).
    destruct (Z.geb_spec (steps l) (max_steps self)); [lia|].
    rewrite He. apply IH; [done|]. right. lia.
Qed.

(** Whatever the loop ends with, it ends in a state that [exec_many]
    reaches, and in a single further pass. *)
Lemma loop_reaches fuel : ∀ self l self' r,
  loop fuel self l = Some (self', r) →
  ∃ n l', exec_many n self l = Return (self', l') ∧
          loop 1 self' l' = Some (self', r).
Proof.
  induction fuel as [|fuel IH]; intros self l self' r; [done|].
  rewrite loop_S. intros Hloop.
  destruct (ip l <? length program)%nat eqn:Hip.
  - destruct (steps l >=? max_steps self) eqn:Hs.
    + simplify_eq. exists 0%nat, l. by rewrite loop_S, Hip, Hs.
    + destruct (exec_instr self l) as [[self1 l1]|e] eqn:He.
      * apply IH in Hloop as (n & l' & Hn & Hlast).
        exists (S n), l'. split; [|done]. apply exec_many_S. eauto.
      * simplify_eq. exists 0%nat, l. by rewrite loop_S, Hip, Hs, He.
  - simplify_eq. exists 0%nat, l. by rewrite loop_S, Hip.
Qed.


End Loop.


(** ** The instruction pointer *)

(** C1 (as stated, refuted).  In ["+[]"] the []] at position 2 runs with
    the cell at 1 and [bracket_map[2] = 1], and leaves the instruction
    pointer on 2, not on the [[] at 1. *)
Lemma close_jump_skips_open : ¬ close_jump_lands_on_open.
Proof.
  intros Hclaim.
  specialize (Hclaim (lit "+[]") {[ 1%nat := 2%nat; 2%nat := 1%nat ]} [] 1
                (mkInterp [1] 0 1000) (mkLocals 2 2 [] 0)
                (mkInterp [1] 0 1000) (mkLocals 2 3 [] 0) 1 1%nat).
  discriminate Hclaim; vm_compute; congruence.
Qed.

(** C1 (amended).  After every instruction the instruction pointer is
    advanced by one from where the instruction left it, also when the
    instruction set it.  So a []] at position [q] that runs with a
    non-zero cell and [bracket_map[q] = p] leaves the pointer on [p + 1]:
    the next instruction is the one after the matching [[].  Likewise a
    [[] on a zero cell leaves it one past its []]; a bracket that does
    not jump and every other instruction leave it on [q + 1]. *)
Theorem exec_instr_ip (program : str) (bracket_map : gmap nat nat)
    (inbuf : str) (tape_len : Z) (self self' : Interp) (l l' : Locals) :
  exec_instr program bracket_map inbuf tape_len self l = Return (self', l') →
  ∃ cmd,
    program !! ip l = Some cmd ∧
    (∀ v p, cmd = ch "]" → current_cell self = Some v → v ≠ 0 →
            bracket_map !! ip l = Some p → ip l' = S p) ∧
    (cmd = ch "]" → current_cell self = Some 0 → ip l' = S (ip l)) ∧
    (∀ p, cmd = ch "[" → current_cell self = Some 0 →
          bracket_map !! ip l = Some p → ip l' = S p) ∧
    (∀ v, cmd = ch "[" → current_cell self = Some v → v ≠ 0 →
          ip l' = S (ip l)) ∧
    (cmd ≠ ch "[" → cmd ≠ ch "]" → ip l' = S (ip l)).
Proof.
  intros (cmd & l1 & Hcmd & Hd & ->)%exec_instr_inv.
  exists cmd. split; [done|]. cbn.
  apply dispatch_ip in Hd. cbn in Hd.
  assert (ch "[" ≠ ch "]") by done.
  destruct Hd as [(-> & Hv & Hp)|[(-> & (v & Hv & Hnz) & Hp)|
                 [(-> & (v & Hv & Hnz) & Hp)|[(-> & Hv & Hp)|(? & ? & Hp)]]]];
    split_and!; intros; simplify_eq; congruence.
Qed.

Lemma exec_instr_ip_witness :
  exec_instr (lit "+[]") {[ 1%nat := 2%nat; 2%nat := 1%nat ]} [] 1
    (mkInterp [1] 0 1000) (mkLocals 2 2 [] 0)
  = Return (mkInterp [1] 0 1000, mkLocals 2 3 [] 0) ∧
  ∃ cmd, lit "+[]" !! 2%nat = Some cmd ∧
         (cmd = ch "]" → ip (mkLocals 2 3 [] 0) = 2%nat).
Proof.
  assert (exec_instr (lit "+[]") {[ 1%nat := 2%nat; 2%nat := 1%nat ]} [] 1
            (mkInterp [1] 0 1000) (mkLocals 2 2 [] 0)
          = Return (mkInterp [1] 0 1000, mkLocals 2 3 [] 0)) as He
    by (vm_compute; reflexivity).
  split; [exact He|].
  destruct (exec_instr_ip _ _ _ _ _ _ _ _ He) as (cmd & Hcmd & Hjump & _).
  exists cmd. split; [done|]. intros ->.
  apply (Hjump 1 1%nat); [done|done|done|]. vm_compute. reflexivity.
Defined.

(** ** Construction *)

Lemma repeat_item_Return {A} (x : A) n l :
  repeat_item x n = Return l →
  n <= sys_maxsize / 8 ∧ l = replicate (Z.to_nat n) x.
Proof.
  unfold repeat_item. repeat case_match; intros; simplify_eq.
  split; [lia|done].
Qed.

Lemma repeat_item_Raise {A} (x : A) n e :
  repeat_item x n = Raise e →
  (e = OverflowError ∧ (n < - sys_maxsize - 1 ∨ sys_maxsize < n)) ∨
  (e = MemoryError ∧ sys_maxsize / 8 < n <= sys_maxsize).
Proof.
  unfold repeat_item. intros Hraise.
  repeat case_match; simplify_eq;
    repeat match goal with
           | H : _ || _ = true |- _ => apply orb_prop in H
           | H : _ || _ = false |- _ => apply orb_false_elim in H as [? ?]
           end; Z_tests; [left|right]; (split; [done|lia]).
Qed.

(** What [__init__] builds when it returns. *)
Lemma init_Return tape_size limit it :
  init tape_size limit = Return it →
  0 < tape_size ∧
  it = {| tape := replicate (Z.to_nat tape_size) 0; ptr := 0;
          max_steps := limit |}.
Proof.
  unfold init. destruct (Z.leb_spec tape_size 0); [done|].
  destruct (repeat_item 0 tape_size) as [cells|e] eqn:Hcells; [|done].
  apply repeat_item_Return in Hcells as [_ ->]. by intros [= <-].
Qed.

(** The three ways in which it raises. *)
Lemma init_Raise tape_size limit e :
  init tape_size limit = Raise e →
  (e = ValueError_TapeSize ∧ tape_size <= 0) ∨
  (e = OverflowError ∧ sys_maxsize < tape_size) ∨
  (e = MemoryError ∧ 0 < tape_size <= sys_maxsize).
Proof.
  unfold init. destruct (Z.leb_spec tape_size 0).
  - intros [= <-]. by left.
  - destruct (repeat_item 0 tape_size) as [cells|e'] eqn:Hcells; [done|].
    intros [= <-]. right.
    apply repeat_item_Raise in Hcells as [[-> ?]|[-> ?]]; [left|right];
      (split; [done|unfold sys_maxsize in *; lia]).
Qed.

(** [max_steps] is stored and nothing else: it has no part in whether
    the construction succeeds, nor in the tape and the cursor. *)
Lemma init_max_steps tape_size limit limit' :
  init tape_size limit' =
  match init tape_size limit with
  | Return it => Return (set_max_steps limit' it)
  | Raise e => Raise e
  end.
Proof.
  unfold init. destruct (tape_size <=? 0); [done|].
  by destruct (repeat_item 0 tape_size).
Qed.

(** ** The step limit *)






Section StepLimit.

Variable self : Interp.
Variable program inbuf : str.
Variable bracket_map : gmap nat nat.
Hypothesis Hmap : build_bracket_map (sanitize program) = Return bracket_map.

Local Abbreviation tape_len := (Z.of_nat (length (tape self))).
Local Abbreviation exec_many :=
  (exec_many (sanitize program) bracket_map inbuf tape_len).
Local Abbreviation loop := (loop (sanitize program) bracket_map inbuf tape_len).

Lemma run_loop :
  run self program inbuf = loop (run_fuel self) self initial_locals.
Proof. unfold run. by rewrite Hmap. Qed.

(** The check comes first in every pass. *)
Lemma loop_limit fuel self0 l :
  (ip l < length (sanitize program))%nat →
  max_steps self0 <= steps l →
  loop (S fuel) self0 l =
    Some (self0, Raise (max_steps_error (max_steps self0))).
Proof.
  intros Hip Hs. rewrite loop_S, (proj2 (Nat.ltb_lt _ _) Hip).
  by destruct (Z.geb_spec (steps l) (max_steps self0)); [|lia].
Qed.

Lemma run_reaches_end n self' l' :
  exec_many n self initial_locals = Return (self', l') →
  (length (sanitize program) ≤ ip l')%nat →
  n = 0%nat ∨ Z.of_nat n <= max_steps self →
  run self program inbuf = Some (self', Return (join (out_chars l'))).
Proof.
  intros Hn Hip Hle. rewrite run_loop. unfold run_fuel.
  replace (S (Z.to_nat (max_steps self)))
    with (n + S (Z.to_nat (max_steps self) - n))%nat by lia.
  rewrite (loop_exec_many _ _ _ _ _ _ _ _ _ _ Hn) by (cbn; lia).
  rewrite loop_S. by rewrite (proj2 (Nat.ltb_ge _ _) Hip).
Qed.

Lemma run_hits_limit n self' l' :
  exec_many n self initial_locals = Return (self', l') →
  (ip l' < length (sanitize program))%nat →
  Z.of_nat n = Z.max 0 (max_steps self) →
  run self program inbuf =
    Some (self', Raise (max_steps_error (max_steps self))).
Proof.
  intros Hn Hip Hmax. rewrite run_loop. unfold run_fuel.
  replace (S (Z.to_nat (max_steps self))) with (n + 1)%nat by lia.
  rewrite (loop_exec_many _ _ _ _ _ _ _ _ _ _ Hn) by (cbn; lia).
  apply exec_many_frame in Hn as (Hm & _ & Hs). cbn in Hs.
  rewrite <- Hm. apply loop_limit; [done|lia].
Qed.

End StepLimit.





(** The cat program stopped by a limit of 5 steps. *)
Lemma run_cat_limit :
  run (mkInterp [0; 0] 0 5) (lit ",[.,]") (lit "hi") =
    Some (mkInterp [105; 0] 0 5, Raise (RuntimeError_MaxSteps 5)).
Proof.
  rewrite <- (max_steps_error_fits 5) by (apply int_str_bound_small; lia).
  apply (run_hits_limit (mkInterp [0; 0] 0 5) (lit ",[.,]") (lit "hi")
           {[ 1%nat := 4%nat; 4%nat := 1%nat ]}) with
    (n := 5%nat) (self' := mkInterp [105; 0] 0 5) (l' := mkLocals 2 5 [lit "h"] 2);
    [vm_compute; reflexivity|vm_compute; reflexivity|vm_compute; lia|reflexivity].
Qed.


(** ** The cursor *)

Lemma init_cursor tape_size limit it :
  init tape_size limit = Return it →
  ptr it = 0 ∧ Z.of_nat (length (tape it)) = tape_size ∧ cursor_in_range it.
Proof.
  intros [Hpos ->]%init_Return. unfold cursor_in_range. cbn.
  rewrite length_replicate. lia.
Qed.

(** What [run] leaves behind is a state its loop reached. *)
Lemma run_reaches self program inbuf self' r :
  run self program inbuf = Some (self', r) →
  self' = self ∨
  ∃ bracket_map n l',
    build_bracket_map (sanitize program) = Return bracket_map ∧
    exec_many (sanitize program) bracket_map inbuf
      (Z.of_nat (length (tape self))) n self initial_locals
    = Return (self', l').
Proof.
  unfold run. destruct (build_bracket_map _) as [bm|e] eqn:Hmap.
  - intros (n & l' & Hn & _)%loop_reaches. right. by exists bm, n, l'.
  - intros [= <- <-]. by left.
Qed.

Lemma run_frame self program inbuf self' r :
  run self program inbuf = Some (self', r) →
  max_steps self' = max_steps self ∧ length (tape self') = length (tape self).
Proof.
  intros [->|(bm & n & l' & _ & (? & ? & _)%exec_many_frame)]%run_reaches; done.
Qed.

Lemma run_cursor self program inbuf self' r :
  cursor_in_range self →
  run self program inbuf = Some (self', r) →
  cursor_in_range self'.
Proof.
  intros Hc [->|(bm & n & l' & _ & Hn)]%run_reaches; [done|].
  by eapply exec_many_cursor.
Qed.

(** C8. The cursor always lies in [[0, tape_size)]: it does after
    construction, in every state the loop of a run reaches, and in the
    state a run leaves for the next one.  [>] at [tape_size - 1] wraps
    it to 0 and [<] at 0 wraps it to [tape_size - 1].  With
    [tape_size = 1] it is 0 in every state a run reaches, whatever the
    program. *)
Theorem cursor_invariant :
  (∀ tape_size limit it,
     init tape_size limit = Return it →
     ptr it = 0 ∧ Z.of_nat (length (tape it)) = tape_size ∧
     cursor_in_range it) ∧
  (∀ self program bracket_map inbuf n self' l',
     cursor_in_range self →
     exec_many program bracket_map inbuf (Z.of_nat (length (tape self)))
               n self initial_locals = Return (self', l') →
     cursor_in_range self' ∧ length (tape self') = length (tape self)) ∧
  (∀ self program inbuf self' r,
     cursor_in_range self →
     run self program inbuf = Some (self', r) →
     cursor_in_range self' ∧ length (tape self') = length (tape self)) ∧
  (∀ bracket_map inbuf self l,
     ptr self = Z.of_nat (length (tape self)) - 1 →
     dispatch bracket_map inbuf (Z.of_nat (length (tape self))) (ch ">") self l
       = Return (set_ptr 0 self, l)) ∧
  (∀ bracket_map inbuf self l,
     ptr self = 0 →
     dispatch bracket_map inbuf (Z.of_nat (length (tape self))) (ch "<") self l
       = Return (set_ptr (Z.of_nat (length (tape self)) - 1) self, l)) ∧
  (∀ limit it program bracket_map inbuf n self' l',
     init 1 limit = Return it →
     exec_many program bracket_map inbuf (Z.of_nat (length (tape it)))
               n it initial_locals = Return (self', l') →
     ptr self' = 0) ∧
  (∀ limit it program inbuf self' r,
     init 1 limit = Return it →
     run it program inbuf = Some (self', r) →
     ptr self' = 0).
Proof.
  split_and!.
  - apply init_cursor.
  - intros self program bm inbuf n self' l' Hc Hn. split.
    + by eapply exec_many_cursor.
    + by apply exec_many_frame in Hn as (_ & ? & _).
  - intros self program inbuf self' r Hc Hrun. split.
    + by eapply run_cursor.
    + by apply run_frame in Hrun as [_ ?].
  - intros bm inbuf self l Hp. unfold dispatch. cbn.
    by destruct (Z.geb_spec (ptr self + 1) (Z.of_nat (length (tape self))));
      [|lia].
  - intros bm inbuf self l Hp. unfold dispatch. cbn.
    by destruct (Z.ltb_spec (ptr self - 1) 0); [|lia].
  - intros limit it program bm inbuf n self' l' Hinit Hn.
    apply init_cursor in Hinit as (_ & Hlen & Hc).
    pose proof (exec_many_cursor _ _ _ _ _ _ _ _ _ eq_refl Hc Hn) as Hc'.
    apply exec_many_frame in Hn as (_ & Hl & _).
    unfold cursor_in_range in Hc'. lia.
  - intros limit it program inbuf self' r Hinit Hrun.
    apply init_cursor in Hinit as (_ & Hlen & Hc).
    pose proof (run_cursor _ _ _ _ _ Hc Hrun) as Hc'.
    apply run_frame in Hrun as [_ Hl].
    unfold cursor_in_range in Hc'. lia.
Qed.

Lemma cursor_invariant_witness :
  cursor_in_range (mkInterp [0; 0; 0] 0 100) ∧
  cursor_in_range (mkInterp [0; 1; 0] 2 100) ∧
  ptr (mkInterp [3] 0 100) = 0.
Proof.
  destruct cursor_invariant as (Hinit & _ & Hrun & _ & _ & _ & Hone).
  split_and!.
  - by apply (Hinit 3 100).
  - apply (Hrun (mkInterp [0; 0; 0] 0 100) (lit ">+<<") [] _
             (Return [])); [by apply (Hinit 3 100)|].
    vm_compute. reflexivity.
  - apply (Hone 100 (mkInterp [0] 0 100) (lit ">>+<+<<+>") []
             _ (Return [])); vm_compute; reflexivity.
Defined.

(** ** A step limit of zero or less *)

(** The bracket matcher raises nothing but its two errors. *)
Lemma build_bracket_map_Raise program e :
  build_bracket_map program = Raise e →
  (∃ pos, e = SyntaxError_UnmatchedClose pos) ∨
  (∃ pos, e = SyntaxError_UnmatchedOpen pos).
Proof.
  unfold build_bracket_map.
  destruct (scan_brackets 0 program [] ∅) as [[[|top stack] bm]|e'] eqn:Hscan;
    cbn; intros; simplify_eq; [by right; eexists|].
  apply scan_brackets_raise in Hscan as (? & ? & ? & _ & _ & ->).
  left. by eexists.
Qed.

Lemma run_syntax_error self program inbuf e :
  build_bracket_map (sanitize program) = Raise e →
  run self program inbuf = Some (self, Raise e).
Proof. unfold run. by intros ->. Qed.

Lemma run_empty self program inbuf :
  sanitize program = [] →
  run self program inbuf = Some (self, Return []).
Proof. unfold run. by intros ->. Qed.

Lemma run_no_budget self program inbuf bracket_map :
  max_steps self <= 0 →
  sanitize program ≠ [] →
  build_bracket_map (sanitize program) = Return bracket_map →
  run self program inbuf =
    Some (self, Raise (max_steps_error (max_steps self))).
Proof.
  intros Hmax Hne Hmap.
  apply (run_hits_limit _ _ _ _ Hmap 0 self initial_locals); [done| |lia].
  cbn. destruct (sanitize program); [done|cbn; lia].
Qed.

(** C10 (as stated, refuted).  With [max_steps = 0] the program ["]"],
    which sanitizes to itself and is not empty, does not fail with
    [StepLimitExceeded]: the bracket matcher runs before the loop and
    raises [UnmatchedClose]. *)
Lemma unmatched_bracket_before_step_limit :
  ∃ it,
    init 1 0 = Return it ∧
    sanitize (lit "]") ≠ [] ∧
    run it (lit "]") [] = Some (it, Raise (SyntaxError_UnmatchedClose 0)) ∧
    run it (lit "]") [] ≠ Some (it, Raise (RuntimeError_MaxSteps 0)).
Proof.
  exists (mkInterp [0] 0 0). split_and!; [done|done|done|].
  vm_compute. discriminate.
Qed.

(** C10 (amended).  Construction does not look at [max_steps]: the
    value, zero and negative ones included, is stored as it is given and
    has no part in whether construction succeeds nor in the tape and the
    cursor it builds; with a positive tape size construction never
    raises [ConfigurationError] (it raises when the tape cannot be
    built, and then whatever [max_steps] is).  On the interpreter so
    built, a run with [max_steps <= 0], of at most 4300 digits, of a
    program whose sanitized text is not empty and whose brackets match
    fails with [StepLimitExceeded] before any instruction is executed
    ([self] is left as it was); with unmatched brackets it fails before
    that, with [UnmatchedClose] or [UnmatchedOpen]; and a program that
    sanitizes to the empty sequence still returns the empty output. *)
Theorem nonpositive_max_steps (tape_size limit : Z) :
  (∀ limit',
     init tape_size limit' =
     match init tape_size limit with
     | Return it => Return (set_max_steps limit' it)
     | Raise e => Raise e
     end) ∧
  (0 < tape_size → init tape_size limit ≠ Raise ValueError_TapeSize) ∧
  ∀ it,
    init tape_size limit = Return it →
    max_steps it = limit ∧
    ∀ program inbuf,
      (sanitize program = [] →
       run it program inbuf = Some (it, Return [])) ∧
      (∀ bracket_map,
         limit <= 0 →
         Z.abs limit < int_str_bound →
         sanitize program ≠ [] →
         build_bracket_map (sanitize program) = Return bracket_map →
         run it program inbuf = Some (it, Raise (RuntimeError_MaxSteps limit))) ∧
      (∀ e,
         build_bracket_map (sanitize program) = Raise e →
         run it program inbuf = Some (it, Raise e) ∧
         ((∃ pos, e = SyntaxError_UnmatchedClose pos) ∨
          (∃ pos, e = SyntaxError_UnmatchedOpen pos))).
Proof.
  split_and!.
  - apply init_max_steps.
  - intros Hpos [[_ ?]|[[? _]|[? _]]]%init_Raise; [lia|done..].
  - intros it [_ ->]%init_Return. split; [done|].
    intros program inbuf. split_and!.
    + apply run_empty.
    + intros bm Hlimit Hdigits Hne Hmap.
      rewrite <- (max_steps_error_fits _ Hdigits).
      by apply (run_no_budget (mkInterp _ 0 limit) _ _ bm).
    + intros e Hmap. split; [by apply run_syntax_error|].
      by apply build_bracket_map_Raise in Hmap.
Qed.

Lemma nonpositive_max_steps_witness :
  ∃ it,
    init 2 (-3) = Return it ∧
    max_steps it = -3 ∧
    init 2 0 = Return (set_max_steps 0 it) ∧
    run it (lit "a+b") [] = Some (it, Raise (RuntimeError_MaxSteps (-3))) ∧
    run it (lit "[+") [] = Some (it, Raise (SyntaxError_UnmatchedOpen 0)) ∧
    run it (lit "hello") [] = Some (it, Return []).
Proof.
  destruct (nonpositive_max_steps 2 (-3)) as (Hsame & _ & Hrun).
  exists (mkInterp [0; 0] 0 (-3)).
  destruct (Hrun (mkInterp [0; 0] 0 (-3)) eq_refl) as [Hmax Hprog].
  split; [reflexivity|]. split; [exact Hmax|]. split; [exact (Hsame 0)|].
  destruct (Hprog (lit "a+b") []) as (_ & Hlimit & _).
  destruct (Hprog (lit "[+") []) as (_ & _ & Hsyntax).
  destruct (Hprog (lit "hello") []) as (Hempty & _).
  split_and!.
  - apply (Hlimit ∅); [lia|apply int_str_bound_small; cbn; lia| |];
      vm_compute; [discriminate|reflexivity].
  - apply (Hsyntax (SyntaxError_UnmatchedOpen 0)). vm_compute. reflexivity.
  - apply Hempty. vm_compute. reflexivity.
Defined.

(** ** Two runs on one interpreter *)

(** C3 (as stated, refuted).  On a freshly constructed interpreter the
    program ["+."] prints the character 1; called again on the same
    interpreter it prints the character 2, because the tape still holds
    the 1 of the first call. *)
Lemma second_run_sees_first_run :
  ∃ it,
    init 1 100 = Return it ∧
    run it (lit "+.") [] = Some (mkInterp [1] 0 100, Return [1]) ∧
    run_twice it (lit "+.") [] (lit "+.") [] =
      Some (mkInterp [2] 0 100, Return [1], Return [2]).
Proof. exists (mkInterp [0] 0 100). vm_compute. done. Qed.

(** C3 (amended).  The tape and the cursor are created when the
    interpreter is constructed, all zeros and 0, and belong to the
    instance: [run] does not reset them.  The first run on a fresh
    interpreter starts from the zeroed tape; a second call on the same
    instance starts from the tape and cursor the first call left, with
    the tape length and [max_steps] unchanged.  It gives the result of a
    call on a fresh interpreter when the first call left the tape all
    zeros and the cursor at 0. *)
Theorem runs_share_tape (tape_size limit : Z) (it it1 : Interp)
    (program inbuf : str) (r1 : outcome str) :
  init tape_size limit = Return it →
  run it program inbuf = Some (it1, r1) →
  tape it = replicate (Z.to_nat tape_size) 0 ∧ ptr it = 0 ∧
  max_steps it1 = limit ∧
  length (tape it1) = Z.to_nat tape_size ∧
  (∀ program2 inbuf2,
     run_twice it program inbuf program2 inbuf2 =
     match run it1 program2 inbuf2 with
     | Some (it2, r2) => Some (it2, r1, r2)
     | None => None
     end) ∧
  (tape it1 = replicate (Z.to_nat tape_size) 0 → ptr it1 = 0 →
   ∀ program2 inbuf2, run it1 program2 inbuf2 = run it program2 inbuf2).
Proof.
  intros [Hpos ->]%init_Return Hrun.
  pose proof (run_frame _ _ _ _ _ Hrun) as [Hmax Hlen]. cbn in Hmax, Hlen.
  rewrite length_replicate in Hlen. split_and!; try done.
  - intros program2 inbuf2. unfold run_twice. by rewrite Hrun.
  - intros Htape Hptr program2 inbuf2. destruct it1; cbn in *. by subst.
Qed.

Lemma runs_share_tape_witness :
  run (mkInterp [0; 0] 0 50) (lit "+>+<-") [] =
    Some (mkInterp [0; 1] 0 50, Return []) ∧
  max_steps (mkInterp [0; 1] 0 50) = 50 ∧
  length (tape (mkInterp [0; 1] 0 50)) = 2%nat.
Proof.
  assert (run (mkInterp [0; 0] 0 50) (lit "+>+<-") [] =
            Some (mkInterp [0; 1] 0 50, Return [])) as Hrun
    by (vm_compute; reflexivity).
  split; [exact Hrun|].
  destruct (runs_share_tape 2 50 (mkInterp [0; 0] 0 50) _ _ _ _ eq_refl Hrun)
    as (_ & _ & Hmax & Hlen & _).
  by split.
Defined.

(** ** The cells *)

Section Cells.

Variable program : str.
Variable bracket_map : gmap nat nat.
Variable inbuf : str.
Variable tape_len : Z.

(** Every character of the input has a code below [bound], which is 256
    or more. *)
Variable bound : Z.
Hypothesis Hbound : 256 <= bound.
Hypothesis Hinbuf : Forall (fun c => 0 <= c < bound) inbuf.

Lemma dispatch_cells cmd self l self' l' :
  cells_below bound self →
  dispatch bracket_map inbuf tape_len cmd self l = Return (self', l') →
  cells_below bound self'.
Proof.
  unfold dispatch, cells_below. intros Hcells Hd.
  dispatch_cases;
    (eapply setitem_Forall; [done| |done]); try lia.
  - pose proof (Z.mod_pos_bound (a + 1) 256). lia.
  - pose proof (Z.mod_pos_bound (a - 1) 256). lia.
  - unfold ord.
    by apply (Forall_lookup_1 (fun c => 0 <= c < bound) inbuf (in_idx l)).
Qed.

Lemma exec_many_cells n : ∀ self l self' l',
  cells_below bound self →
  exec_many program bracket_map inbuf tape_len n self l = Return (self', l') →
  cells_below bound self'.
Proof.
  induction n as [|n IH]; intros self l self' l' Hcells.
  - by intros [= <- <-].
  - intros (self1 & l1 & (cmd & l0 & _ & Hd & _)%exec_instr_inv
                        & Hn)%exec_many_S.
    eapply IH; [|done]. by eapply dispatch_cells.
Qed.

End Cells.

(** X5. With an input of characters below 256 every cell stays a byte,
    from construction through every state a run reaches. *)
Theorem cells_stay_bytes tape_size limit it program bracket_map inbuf n self' l' :
  Forall (fun c => 0 <= c < 256) inbuf →
  init tape_size limit = Return it →
  exec_many program bracket_map inbuf (Z.of_nat (length (tape it)))
            n it initial_locals = Return (self', l') →
  cells_are_bytes self'.
Proof.
  intros Hinbuf [_ ->]%init_Return Hn.
  eapply (exec_many_cells _ _ _ _ 256); [done..| |done].
  unfold cells_below. cbn. by apply Forall_replicate.
Qed.

Lemma cells_stay_bytes_witness :
  cells_are_bytes (mkInterp [255; 104] 1 50).
Proof.
  apply (cells_stay_bytes 2 50 (mkInterp [0; 0] 0 50) (lit "->,") ∅ (lit "h")
           3 _ (mkLocals 3 3 [] 1)).
  - repeat constructor; by vm_compute.
  - reflexivity.
  - vm_compute. reflexivity.
Defined.

(** [,] stores the code of the next input character as it is. *)
Lemma comma_stores_code tape_size limit it c rest :
  init tape_size limit = Return it →
  0 < limit →
  ∃ it', run it (lit ",") (c :: rest) = Some (it', Return []) ∧
         tape it' !! 0%nat = Some c.
Proof.
  intros Hinit Hlimit. pose proof Hinit as [Hpos ->]%init_Return.
  destruct (Z.to_nat tape_size) as [|k] eqn:Hk; [lia|].
  exists (mkInterp (c :: replicate k 0) 0 limit). split; [|done].
  apply (run_reaches_end _ (lit ",") (c :: rest) ∅ eq_refl 1 _
           (mkLocals 1 1 [] 1)).
  - vm_compute. reflexivity.
  - vm_compute. lia.
  - right. cbn. lia.
Qed.

(** C6 (the code departs from it).  With the default configuration, the
    program [","] on an input whose first character is U+0100 stores 256
    in cell 0: [,] writes [ord] of the character as it is, where [+] and
    [-] reduce modulo 256. *)
Theorem wide_character_overflows_cell :
  ∃ it it',
    init default_tape_size default_max_steps = Return it ∧
    run it (lit ",") [256] = Some (it', Return []) ∧
    tape it' !! 0%nat = Some 256 ∧
    ¬ cells_are_bytes it'.
Proof.
  assert (0 < default_tape_size) as Hsize by reflexivity.
  assert (0 < default_max_steps) as Hlimit by reflexivity.
  assert (init default_tape_size default_max_steps =
            Return {| tape := replicate (Z.to_nat default_tape_size) 0;
                      ptr := 0; max_steps := default_max_steps |}) as Hinit
    by reflexivity.
  destruct (comma_stores_code _ _ _ 256 [] Hinit Hlimit)
    as (it' & Hrun & Hcell).
  eexists _, it'. split_and!; [exact Hinit|exact Hrun|exact Hcell|].
  unfold cells_are_bytes, cells_below. intros Hbytes.
  pose proof (Forall_lookup_1 (fun v => 0 <= v < 256) _ _ _ Hbytes Hcell)
    as Hbyte.
  cbv beta in Hbyte. lia.
Qed.

(** ** No other exception *)

Lemma getitem_Forall {A} (P : A → Prop) (l : list A) (i : Z) (x : A) :
  Forall P l → getitem l i = Some x → P x.
Proof.
  unfold getitem. intros Hl Hx.
  repeat case_match; try done; by eapply Forall_lookup_1.
Qed.

Lemma chr_Return v s : chr v = Return s → s = [v].
Proof. unfold chr. intros Hchr. repeat case_match; by simplify_eq. Qed.

Lemma chr_valid v : valid_codepoint v → chr v = Return [v].
Proof.
  unfold valid_codepoint, chr. intros [? ?].
  destruct (Z.ltb_spec v (- 2 ^ 31)); [lia|].
  destruct (Z.ltb_spec (2 ^ 31 - 1) v); [lia|].
  destruct (Z.leb_spec 0 v); [|lia].
  by destruct (Z.ltb_spec v 1114112); [|lia].
Qed.

Section Safety.

Variable program : str.
Variable bracket_map : gmap nat nat.
Variable inbuf : str.

Hypothesis Hkeys : ∀ p, is_bracket_at program p → is_Some (bracket_map !! p).
Hypothesis Hinbuf : Forall valid_codepoint inbuf.

(** On a well-formed interpreter no pass of the loop raises. *)
Lemma exec_instr_safe self l :
  well_formed self →
  (ip l < length program)%nat →
  ∃ self' l',
    exec_instr program bracket_map inbuf (Z.of_nat (length (tape self))) self l
    = Return (self', l').
Proof.
  intros [Hc Hcells] Hip.
  destruct (lookup_lt_is_Some_2 _ _ Hip) as [cmd Hcmd].
  destruct (getitem_in_range _ _ Hc) as [v Hv].
  pose proof (getitem_Forall _ _ _ _ Hcells Hv) as Hvalid.
  pose proof (fun x => setitem_in_range (tape self) (ptr self) x Hc) as Hset.
  unfold exec_instr. cbn -[dispatch]. rewrite Hcmd. cbn -[dispatch].
  unfold dispatch.
  repeat match goal with
         | |- context [cmd =? ch ?a] =>
             destruct (Z.eqb_spec cmd (ch a)); [subst cmd|]
         end;
    rewrite ?Hv; cbn -[ch lookup chr Nat.ltb];
    rewrite ?Hset; cbn -[ch lookup chr Nat.ltb]; eauto.
  - rewrite chr_valid by done. cbn. eauto.
  - destruct (in_idx l <? length inbuf)%nat eqn:Hin.
    + apply Nat.ltb_lt, lookup_lt_is_Some_2 in Hin as [c Hin].
      rewrite Hin. cbn. rewrite Hset. cbn. eauto.
    + cbn. eauto.
  - destruct (v =? 0); [|eauto].
    destruct (Hkeys (ip l)) as [t Ht]; [by left|].
    rewrite Ht. cbn. eauto.
  - destruct (v =? 0); cbn -[lookup]; [eauto|].
    destruct (Hkeys (ip l)) as [t Ht]; [by right|].
    rewrite Ht. cbn. eauto.
Qed.

Lemma exec_many_well_formed n self l self' l' :
  well_formed self →
  exec_many program bracket_map inbuf (Z.of_nat (length (tape self))) n self l
    = Return (self', l') →
  well_formed self' ∧ length (tape self') = length (tape self).
Proof.
  intros [Hc Hcells] Hn. unfold well_formed. split_and!.
  - by eapply exec_many_cursor.
  - assert (256 <= 1114112) as Hbound by lia.
    exact (exec_many_cells _ _ _ _ 1114112 Hbound Hinbuf n _ _ _ _ Hcells Hn).
  - by apply exec_many_frame in Hn as (_ & ? & _).
Qed.

End Safety.


(** How the loop can end on a well-formed interpreter whose bracket map
    has every bracket of the program: with the output or at the step
    limit. *)
Lemma loop_outcome program bracket_map inbuf fuel self l self' r :
  (∀ p, is_bracket_at program p → is_Some (bracket_map !! p)) →
  Forall valid_codepoint inbuf →
  well_formed self →
  loop program bracket_map inbuf (Z.of_nat (length (tape self))) fuel self l
    = Some (self', r) →
  well_formed self' ∧
  ((∃ out, r = Return out) ∨ r = Raise (max_steps_error (max_steps self))).
Proof.
  intros Hkeys Hinbuf Hwf (n & l' & Hn & Hlast)%loop_reaches.
  pose proof (exec_many_well_formed _ _ _ Hinbuf _ _ _ _ _ Hwf Hn)
    as [Hwf' Hlen].
  split; [done|].
  pose proof (exec_many_frame _ _ _ _ _ _ _ _ _ Hn) as (Hmax & _ & _).
  rewrite loop_S in Hlast.
  destruct (ip l' <? length program)%nat eqn:Hip;
    [|left; simplify_eq; by eexists].
  destruct (steps l' >=? max_steps self');
    [right; injection Hlast as <-; by rewrite Hmax|].
  apply Nat.ltb_lt in Hip.
  destruct (exec_instr_safe _ _ inbuf Hkeys _ _ Hwf' Hip)
    as (self2 & l2 & He).
  rewrite Hlen in He. by rewrite He in Hlast.
Qed.

(** X1. On a well-formed interpreter and a Python string as input, [run]
    returns the output or raises one of the classified errors: a bracket
    error, the step limit or, when [max_steps] has more than 4300
    digits, the [ValueError] of writing it.  The index, key and [chr]
    errors of the model never happen.  A bracket error leaves the
    interpreter untouched, and the interpreter stays well formed. *)
Theorem run_classified (self : Interp) (program inbuf : str)
    (self' : Interp) (r : outcome str) :
  well_formed self →
  Forall valid_codepoint inbuf →
  run self program inbuf = Some (self', r) →
  classified self self' r ∧ well_formed self'.
Proof.
  intros Hwf Hinbuf. unfold run.
  destruct (build_bracket_map (sanitize program)) as [bm|e] eqn:Hmap.
  - intros Hloop.
    destruct (loop_outcome _ _ _ _ _ _ _ _ (bracket_map_keys _ _ Hmap)
                Hinbuf Hwf Hloop) as [Hwf' [[out ->]| ->]]; [by split|].
    split; [|done]. unfold max_steps_error.
    by destruct (Z.ltb_spec (Z.abs (max_steps self)) int_str_bound).
  - intros [= <- <-]. split; [|done].
    by destruct (build_bracket_map_Raise _ _ Hmap) as [[pos ->]|[pos ->]].
Qed.

Lemma run_classified_witness :
  classified (mkInterp [0; 0] 0 5) (mkInterp [105; 0] 0 5)
             (Raise (RuntimeError_MaxSteps 5)) ∧
  well_formed (mkInterp [105; 0] 0 5).
Proof.
  apply (run_classified (mkInterp [0; 0] 0 5) (lit ",[.,]") (lit "hi")).
  - split; [by vm_compute|]. repeat constructor; by vm_compute.
  - repeat constructor; by vm_compute.
  - apply run_cat_limit.
Defined.

(** ** Further properties of the interpreter *)

Lemma getitem_setitem {A} (l l' : list A) (i : Z) (x : A) :
  setitem l i x = Some l' → getitem l' i = Some x.
Proof.
  unfold setitem, getitem. intros Hset.
  repeat case_match; simplify_eq; Z_tests;
    rewrite ?length_insert in *; try lia;
    repeat match goal with
           | H : _ && _ = true |- _ => apply andb_prop in H as [? ?]
           end; Z_tests; try lia;
    apply list_lookup_insert_eq; lia.
Qed.


(** ** More on the bracket matcher *)

Lemma count_char_cons c x program :
  count_char c (x :: program) =
  ((if decide (x = c) then 1 else 0) + count_char c program)%nat.
Proof.
  unfold count_char. change (filter (fun x => x = c) (x :: program))
    with (if decide (x = c) then x :: filter (fun x => x = c) program
          else filter (fun x => x = c) program).
  by case_decide.
Qed.

Lemma count_char_here c program :
  count_char c (c :: program) = S (count_char c program).
Proof. by rewrite count_char_cons, decide_True. Qed.

Lemma count_char_skip c x program :
  x ≠ c → count_char c (x :: program) = count_char c program.
Proof. intros. by rewrite count_char_cons, decide_False. Qed.

(** Rewrites the counts of a text by its first character. *)
Ltac count_first :=
  repeat rewrite count_char_here in *;
  repeat rewrite count_char_skip in * by done.

Lemma scan_brackets_cons pos c rest stack bracket_map :
  scan_brackets pos (c :: rest) stack bracket_map =
  if c =? ch "[" then
    scan_brackets (S pos) rest (pos :: stack) bracket_map
  else if c =? ch "]" then
    match stack with
    | [] => Raise (SyntaxError_UnmatchedClose pos)
    | start :: stack' =>
        scan_brackets (S pos) rest stack'
          (<[pos := start]> (<[start := pos]> bracket_map))
    end
  else scan_brackets (S pos) rest stack bracket_map.
Proof. reflexivity. Qed.

(** The prefixes of [c :: program] are the empty one and [c] before a
    prefix of [program]. *)
Lemma forall_take_cons (P : str → Prop) c program :
  (∀ k, P (take k (c :: program))) ↔ P [] ∧ ∀ k, P (c :: take k program).
Proof.
  split.
  - intros H. split; [apply (H 0%nat)|]. intros k. apply (H (S k)).
  - intros [H0 HS] [|k]; [apply H0|apply HS].
Qed.

(** The scanner ends with an empty stack exactly when the text, read at
    nesting depth [length stack], closes that depth and never goes
    below zero. *)
Lemma scan_brackets_depth program : ∀ pos stack bracket_map,
  (∃ bracket_map',
     scan_brackets pos program stack bracket_map = Return ([], bracket_map')) ↔
  (∀ k, (count_char (ch "]") (take k program)
         ≤ length stack + count_char (ch "[") (take k program))%nat) ∧
  (length stack + count_char (ch "[") program)%nat
    = count_char (ch "]") program.
Proof.
  induction program as [|c program IH]; intros pos stack bm.
  - cbn. split.
    + intros (bm' & [= -> <-]). split; [|done].
      intros k. by rewrite take_nil.
    + intros [_ Hd]. destruct stack; [|done]. by exists bm.
  - assert (ch "[" ≠ ch "]") as Hne by done.
    assert (ch "]" ≠ ch "[") as Hne' by done.
    rewrite scan_brackets_cons,
      (forall_take_cons (fun t => (count_char (ch "]") t
                                   ≤ length stack + count_char (ch "[") t)%nat)).
    destruct (Z.eqb_spec c (ch "[")) as [->|Ho].
    { rewrite IH. cbn [length]. count_first.
      split; (intros [Hk Hd]; split_and!; [try (cbn; lia)..|lia]);
        intros k; [|destruct Hk as [_ Hk]]; specialize (Hk k);
        count_first; lia. }
    destruct (Z.eqb_spec c (ch "]")) as [->|Hcl].
    { count_first. destruct stack as [|start stack].
      - split; [by intros (? & ?)|]. intros [[_ Hk] _].
        specialize (Hk 0%nat). rewrite take_0 in Hk. count_first.
        cbn in Hk. lia.
      - rewrite IH. cbn [length].
        split; (intros [Hk Hd]; split_and!; [try (cbn; lia)..|lia]);
          intros k; [|destruct Hk as [_ Hk]]; specialize (Hk k);
          count_first; lia. }
    rewrite IH. count_first.
    split; (intros [Hk Hd]; split_and!; [try (cbn; lia)..|lia]);
      intros k; [|destruct Hk as [_ Hk]]; specialize (Hk k);
      count_first; lia.
Qed.

(** X4. The bracket matcher succeeds exactly on the programs whose
    brackets are balanced: no prefix has more []] than [[], and the
    whole program has as many of each.  On every other program it
    raises. *)
Theorem build_bracket_map_balanced (program : str) :
  (∃ bracket_map, build_bracket_map program = Return bracket_map) ↔
  balanced program.
Proof.
  unfold balanced.
  pose proof (scan_brackets_depth program 0 [] ∅) as Hdepth.
  cbn [length] in Hdepth. rewrite <- Hdepth. split.
  - intros (bm & Hmap%build_bracket_map_Return). by exists bm.
  - intros (bm & Hscan). exists bm. by apply build_bracket_map_Return.
Qed.

(** Induction over the scanner: a property of its variables that holds
    at the start and that each of the three kinds of step keeps, holds
    when the scan ends. *)
Section ScanInduction.

Variable program : str.
Variable P : nat → list nat → gmap nat nat → Prop.

Hypothesis Hopen : ∀ pos stack bracket_map,
  program !! pos = Some (ch "[") →
  scan_inv program pos stack bracket_map →
  P pos stack bracket_map → P (S pos) (pos :: stack) bracket_map.

Hypothesis Hclose : ∀ pos start stack bracket_map,
  program !! pos = Some (ch "]") →
  scan_inv program pos (start :: stack) bracket_map →
  P pos (start :: stack) bracket_map →
  P (S pos) stack (<[pos := start]> (<[start := pos]> bracket_map)).

Hypothesis Hskip : ∀ pos stack bracket_map c,
  program !! pos = Some c → c ≠ ch "[" → c ≠ ch "]" →
  P pos stack bracket_map → P (S pos) stack bracket_map.

Lemma scan_brackets_keeps rest : ∀ pos stack bracket_map stack' bracket_map',
  drop pos program = rest →
  (pos ≤ length program)%nat →
  scan_inv program pos stack bracket_map →
  P pos stack bracket_map →
  scan_brackets pos rest stack bracket_map = Return (stack', bracket_map') →
  P (length program) stack' bracket_map'.
Proof.
  induction rest as [|c rest IH]; intros pos stack bm stack' bm' Hdrop Hle Hinv HP.
  - intros [= <- <-]. apply drop_nil_inv in Hdrop.
    by replace (length program) with pos by lia.
  - assert (program !! pos = Some c) as Hc.
    { pose proof (lookup_drop program pos 0) as Hl.
      by rewrite Hdrop, Nat.add_0_r in Hl. }
    assert (drop (S pos) program = rest) as Hdrop'.
    { pose proof (drop_drop program 1 pos) as Hd.
      by rewrite Hdrop, Nat.add_1_r in Hd. }
    assert (S pos ≤ length program)%nat as Hle'
      by (apply lookup_lt_Some in Hc; lia).
    rewrite scan_brackets_cons.
    destruct (Z.eqb_spec c (ch "[")) as [->|Ho].
    { apply IH; [done..|by apply scan_inv_open|by apply Hopen]. }
    destruct (Z.eqb_spec c (ch "]")) as [->|Hcl].
    { destruct stack as [|start stack]; [done|].
      apply IH; [done..|by apply scan_inv_close|by apply Hclose]. }
    apply IH; [done..|by eapply scan_inv_skip|by eapply Hskip].
Qed.

End ScanInduction.

Lemma scan_inv_value_below program pos stack bracket_map p q :
  scan_inv program pos stack bracket_map →
  bracket_map !! p = Some q → (q < pos)%nat.
Proof.
  intros Hinv Hpq. eapply scan_inv_key_below; [done|].
  rewrite (inv_symmetric _ _ _ _ Hinv p q Hpq). by eexists.
Qed.

(** The pairs the scanner makes never cross. *)
Lemma scan_brackets_nested program stack bracket_map :
  scan_brackets 0 program [] ∅ = Return (stack, bracket_map) →
  properly_nested bracket_map ∧ stack_outside stack bracket_map.
Proof.
  apply (scan_brackets_keeps program
           (fun _ st bm => properly_nested bm ∧ stack_outside st bm));
    [| | | |lia|apply scan_inv_start|].
  - (* [[]: the new position lies right of every pair *)
    intros pos st bm Hc Hinv [Hnest Hout]. split; [done|].
    intros p q s Hpq Hlt [->|Hs]%elem_of_cons; [|by eapply Hout].
    right. by eapply scan_inv_value_below.
  - (* []]: the new pair [(start, pos)] *)
    intros pos start st bm Hc Hinv [Hnest Hout].
    assert (start < pos)%nat as Hstart
      by (eapply scan_inv_below; [done|by left]).
    destruct (inv_decreasing _ _ _ _ Hinv) as [Hbelow _].
    rewrite Forall_forall in Hbelow.
    assert (∀ p q, <[pos := start]> (<[start := pos]> bm) !! p = Some q →
                   (p < q)%nat →
                   (p = start ∧ q = pos) ∨ bm !! p = Some q) as Hpair.
    { intros p q. rewrite !lookup_insert.
      destruct (decide (pos = p)) as [<-|?]; [intros [= <-]; lia|].
      destruct (decide (start = p)) as [<-|?]; [intros [= <-]; by left|].
      by right. }
    split.
    + intros p q p' q' Hpq Hpq' Hlt Hlt' Hpp' Hp'q.
      destruct (Hpair _ _ Hpq Hlt) as [[-> ->]|Hold];
        destruct (Hpair _ _ Hpq' Hlt') as [[-> ->]|Hold']; try lia.
      * by eapply scan_inv_value_below.
      * destruct (Hout p q start Hold Hlt) as [?|?]; [by left|lia..].
      * by eapply Hnest.
    + intros p q s Hpq Hlt Hs.
      destruct (Hpair _ _ Hpq Hlt) as [[-> ->]|Hold].
      * left. by apply Hbelow.
      * eapply Hout; [done..|by right].
  - by intros pos st bm c _ _ _ ?.
  - reflexivity.
  - split; [intros p q p' q' Hpq|intros p q s Hpq]; by rewrite lookup_empty in Hpq.
Qed.

(** X10. In the map of a matched program the loops nest: a pair that
    opens inside another pair also closes inside it, so two pairs are
    disjoint or one contains the other. *)
Theorem build_bracket_map_nested (program : str) (bracket_map : gmap nat nat) :
  build_bracket_map program = Return bracket_map →
  properly_nested bracket_map.
Proof.
  intros Hscan%build_bracket_map_Return.
  by apply scan_brackets_nested in Hscan as [? _].
Qed.

Lemma build_bracket_map_nested_witness :
  build_bracket_map (lit "[-[>]+]") =
    Return {[ 0%nat := 6%nat; 6%nat := 0%nat; 2%nat := 4%nat; 4%nat := 2%nat ]} ∧
  properly_nested
    {[ 0%nat := 6%nat; 6%nat := 0%nat; 2%nat := 4%nat; 4%nat := 2%nat ]}.
Proof.
  assert (build_bracket_map (lit "[-[>]+]") =
            Return {[ 0%nat := 6%nat; 6%nat := 0%nat;
                      2%nat := 4%nat; 4%nat := 2%nat ]}) as Hmap
    by (vm_compute; reflexivity).
  split; [exact Hmap|]. exact (build_bracket_map_nested _ _ Hmap).
Defined.

(** ** Instructions that undo each other *)

Lemma current_cell_lookup self :
  cursor_in_range self →
  current_cell self = tape self !! Z.to_nat (ptr self).
Proof.
  unfold cursor_in_range, current_cell, getitem. intros Hc.
  by destruct (Z.leb_spec 0 (ptr self)); [|lia].
Qed.

Lemma set_tape_cursor t self :
  length t = length (tape self) →
  cursor_in_range self → cursor_in_range (set_tape t self).
Proof. unfold cursor_in_range. cbn. by intros ->. Qed.

Lemma set_tape_same self : set_tape (tape self) self = self.
Proof. by destruct self. Qed.

Section CellWrites.

Variable bracket_map : gmap nat nat.
Variable inbuf : str.
Variable tape_len : Z.

(** What [+] and [-] do when the cursor is in range. *)
Lemma dispatch_plus_in_range self l v :
  cursor_in_range self → current_cell self = Some v →
  dispatch bracket_map inbuf tape_len (ch "+") self l =
  Return (set_tape (<[Z.to_nat (ptr self) := (v + 1) mod 256]> (tape self)) self, l).
Proof.
  intros Hc Hv. rewrite dispatch_plus, Hv. cbn -[setitem Z.modulo].
  by rewrite (setitem_in_range _ _ _ Hc).
Qed.

Lemma dispatch_minus_in_range self l v :
  cursor_in_range self → current_cell self = Some v →
  dispatch bracket_map inbuf tape_len (ch "-") self l =
  Return (set_tape (<[Z.to_nat (ptr self) := (v - 1) mod 256]> (tape self)) self, l).
Proof.
  intros Hc Hv. rewrite dispatch_minus, Hv. cbn -[setitem Z.modulo].
  by rewrite (setitem_in_range _ _ _ Hc).
Qed.

Lemma current_cell_written self x :
  cursor_in_range self →
  current_cell (set_tape (<[Z.to_nat (ptr self) := x]> (tape self)) self) = Some x.
Proof.
  intros Hc. rewrite current_cell_lookup
    by (apply set_tape_cursor; [apply length_insert|done]).
  cbn. apply list_lookup_insert_eq. unfold cursor_in_range in Hc. lia.
Qed.

(** Writing [y] over a cell just written, where the cell held [y]
    before, gives the interpreter back. *)
Lemma write_back self x y :
  cursor_in_range self → current_cell self = Some y →
  set_tape (<[Z.to_nat (ptr self) := y]>
              (tape (set_tape (<[Z.to_nat (ptr self) := x]> (tape self)) self)))
           (set_tape (<[Z.to_nat (ptr self) := x]> (tape self)) self) = self.
Proof.
  intros Hc Hy. rewrite current_cell_lookup in Hy by done. cbn.
  rewrite list_insert_insert_eq, list_insert_id by done. by destruct self.
Qed.

End CellWrites.

(** X2. On a cell that holds a byte [v], with the cursor in range, [+]
    leaves [(v + 1) mod 256] and [-] leaves [(v - 1) mod 256] in the
    cell (so 255 wraps to 0 and 0 to 255), and each undoes the other:
    [+] then [-], or [-] then [+], gives back the interpreter as it
    was. *)
Theorem cell_round_trip (bracket_map : gmap nat nat) (inbuf : str)
    (tape_len : Z) (self : Interp) (l : Locals) (v : Z) :
  cursor_in_range self →
  current_cell self = Some v →
  0 <= v < 256 →
  (∃ self1,
     dispatch bracket_map inbuf tape_len (ch "+") self l = Return (self1, l) ∧
     current_cell self1 = Some (if v =? 255 then 0 else v + 1) ∧
     dispatch bracket_map inbuf tape_len (ch "-") self1 l = Return (self, l)) ∧
  (∃ self2,
     dispatch bracket_map inbuf tape_len (ch "-") self l = Return (self2, l) ∧
     current_cell self2 = Some (if v =? 0 then 255 else v - 1) ∧
     dispatch bracket_map inbuf tape_len (ch "+") self2 l = Return (self, l)).
Proof.
  intros Hc Hv Hbyte.
  assert ((v + 1) mod 256 = if v =? 255 then 0 else v + 1) as Hup.
  { destruct (Z.eqb_spec v 255) as [->|?]; [done|]. apply Z.mod_small. lia. }
  assert ((v - 1) mod 256 = if v =? 0 then 255 else v - 1) as Hdown.
  { destruct (Z.eqb_spec v 0) as [->|?]; [done|]. apply Z.mod_small. lia. }
  assert (((v + 1) mod 256 - 1) mod 256 = v) as Hback.
  { rewrite Zminus_mod_idemp_l. replace (v + 1 - 1) with v by lia.
    by apply Z.mod_small. }
  assert (((v - 1) mod 256 + 1) mod 256 = v) as Hforth.
  { rewrite Zplus_mod_idemp_l. replace (v - 1 + 1) with v by lia.
    by apply Z.mod_small. }
  split; eexists; (split_and!;
    [by (apply dispatch_plus_in_range || apply dispatch_minus_in_range)
    |rewrite current_cell_written by done; congruence|]).
  - erewrite dispatch_minus_in_range;
      [|apply set_tape_cursor; [apply length_insert|done]
       |by apply current_cell_written].
    cbn [ptr set_tape]. rewrite Hback. by rewrite write_back.
  - erewrite dispatch_plus_in_range;
      [|apply set_tape_cursor; [apply length_insert|done]
       |by apply current_cell_written].
    cbn [ptr set_tape]. rewrite Hforth. by rewrite write_back.
Qed.

Lemma cell_round_trip_witness :
  ∃ self1,
    dispatch ∅ [] 2 (ch "+") (mkInterp [7; 255] 1 10) initial_locals
      = Return (self1, initial_locals) ∧
    current_cell self1 = Some 0 ∧
    dispatch ∅ [] 2 (ch "-") self1 initial_locals
      = Return (mkInterp [7; 255] 1 10, initial_locals).
Proof.
  destruct (cell_round_trip ∅ [] 2 (mkInterp [7; 255] 1 10) initial_locals 255)
    as [Hplus _]; [by vm_compute|reflexivity|lia|].
  exact Hplus.
Defined.

(** X6. With the cursor in range, [>] and [<] undo each other, also
    across the ends of the tape: [>] then [<], or [<] then [>], gives
    back the interpreter as it was, and neither touches the tape. *)
Theorem cursor_round_trip (bracket_map : gmap nat nat) (inbuf : str)
    (self : Interp) (l : Locals) :
  cursor_in_range self →
  (∃ self1,
     dispatch bracket_map inbuf (Z.of_nat (length (tape self))) (ch ">") self l
       = Return (self1, l) ∧
     tape self1 = tape self ∧ cursor_in_range self1 ∧
     dispatch bracket_map inbuf (Z.of_nat (length (tape self))) (ch "<") self1 l
       = Return (self, l)) ∧
  (∃ self2,
     dispatch bracket_map inbuf (Z.of_nat (length (tape self))) (ch "<") self l
       = Return (self2, l) ∧
     tape self2 = tape self ∧ cursor_in_range self2 ∧
     dispatch bracket_map inbuf (Z.of_nat (length (tape self))) (ch ">") self2 l
       = Return (self, l)).
Proof.
  unfold cursor_in_range. intros Hc. destruct self as [t p m]. cbn in *.
  split; eexists; (split_and!; [reflexivity|done|..]); cbn.
  - destruct (Z.geb_spec (p + 1) (Z.of_nat (length t))); lia.
  - destruct (Z.geb_spec (p + 1) (Z.of_nat (length t))); lia.
  - unfold dispatch, set_ptr. cbn. do 2 f_equal. f_equal.
    destruct (Z.geb_spec (p + 1) (Z.of_nat (length t)));
      [destruct (Z.ltb_spec (0 - 1) 0)|destruct (Z.ltb_spec (p + 1 - 1) 0)];
      lia.
  - destruct (Z.ltb_spec (p - 1) 0); lia.
  - destruct (Z.ltb_spec (p - 1) 0); lia.
  - unfold dispatch, set_ptr. cbn. do 2 f_equal. f_equal.
    destruct (Z.ltb_spec (p - 1) 0);
      [destruct (Z.geb_spec (Z.of_nat (length t) - 1 + 1) (Z.of_nat (length t)))
      |destruct (Z.geb_spec (p - 1 + 1) (Z.of_nat (length t)))];
      lia.
Qed.

Lemma cursor_round_trip_witness :
  ∃ self1,
    dispatch ∅ [] 3 (ch ">") (mkInterp [1; 2; 3] 2 10) initial_locals
      = Return (self1, initial_locals) ∧
    ptr self1 = 0 ∧
    dispatch ∅ [] 3 (ch "<") self1 initial_locals
      = Return (mkInterp [1; 2; 3] 2 10, initial_locals).
Proof.
  destruct (cursor_round_trip ∅ [] (mkInterp [1; 2; 3] 2 10) initial_locals)
    as [(self1 & Hstep & _ & _ & Hback) _]; [by vm_compute|].
  exists self1. split; [exact Hstep|]. split; [|exact Hback].
  assert (Return (self1, initial_locals)
          = Return (mkInterp [1; 2; 3] 0 10, initial_locals)) as Heq
    by (rewrite <- Hstep; reflexivity).
  by simplify_eq.
Defined.

(** ** What a run that returns has done *)

Section LoopBounds.

Variable program : str.
Variable bracket_map : gmap nat nat.
Variable inbuf : str.
Variable tape_len : Z.

(** The passes the loop makes stay within the step limit. *)
Lemma loop_reaches_within fuel : ∀ self l self' r,
  loop program bracket_map inbuf tape_len fuel self l = Some (self', r) →
  ∃ n l',
    exec_many program bracket_map inbuf tape_len n self l = Return (self', l') ∧
    (n = 0%nat ∨ steps l + Z.of_nat n <= max_steps self) ∧
    loop program bracket_map inbuf tape_len 1 self' l' = Some (self', r).
Proof.
  induction fuel as [|fuel IH]; intros self l self' r; [done|].
  rewrite loop_S. intros Hloop.
  destruct (ip l <? length program)%nat eqn:Hip.
  - destruct (Z.geb_spec (steps l) (max_steps self)) as [Hs|Hs].
    + simplify_eq. exists 0%nat, l. split_and!; [done|by left|].
      rewrite loop_S, Hip. by destruct (Z.geb_spec (steps l) (max_steps self')); [|lia].
    + destruct (exec_instr program bracket_map inbuf tape_len self l)
        as [[self1 l1]|e] eqn:He.
      * pose proof (exec_instr_frame _ _ _ _ _ _ _ _ He) as (Hm & _ & Hst & _).
        apply IH in Hloop as (n & l' & Hn & Hle & Hlast).
        exists (S n), l'. split_and!; [|right; lia|done].
        apply exec_many_S. eauto.
      * simplify_eq. exists 0%nat, l. split_and!; [done|by left|].
        rewrite loop_S, Hip, He.
        by destruct (Z.geb_spec (steps l) (max_steps self')); [lia|].
  - simplify_eq. exists 0%nat, l. split_and!; [done|by left|].
    by rewrite loop_S, Hip.
Qed.

(** One pass prints at most one character and reads at most one. *)
Lemma exec_instr_io self l self' l' :
  exec_instr program bracket_map inbuf tape_len self l = Return (self', l') →
  (length (join (out_chars l')) ≤ S (length (join (out_chars l))))%nat ∧
  (in_idx l ≤ in_idx l' ≤ S (in_idx l))%nat ∧
  ((in_idx l ≤ length inbuf)%nat → (in_idx l' ≤ length inbuf)%nat).
Proof.
  intros (cmd & l1 & _ & Hd & ->)%exec_instr_inv. cbn.
  unfold dispatch in Hd. dispatch_cases;
    repeat match goal with
           | H : chr _ = Return _ |- _ => apply chr_Return in H as ->
           end;
    unfold join in *; cbn [out_chars in_idx set_steps] in *;
    repeat match goal with
           | H : (_ <=? _)%nat = true |- _ => apply Nat.leb_le in H
           end;
    try lia.
  rewrite concat_app, length_app. cbn. lia.
Qed.

Lemma exec_many_io n : ∀ self l self' l',
  exec_many program bracket_map inbuf tape_len n self l = Return (self', l') →
  (length (join (out_chars l')) ≤ n + length (join (out_chars l)))%nat ∧
  (in_idx l' ≤ n + in_idx l)%nat ∧
  ((in_idx l ≤ length inbuf)%nat → (in_idx l' ≤ length inbuf)%nat).
Proof.
  induction n as [|n IH]; intros self l self' l'.
  - intros [= <- <-]. cbn. lia.
  - intros (self1 & l1 & (? & ? & ?)%exec_instr_io & (? & ? & ?)%IH)%exec_many_S.
    split_and!; [lia..|auto].
Qed.

End LoopBounds.

(** A run that returns went through [n] passes within the limit and
    stopped at the end of the program. *)
Lemma run_Return_inv self program inbuf self' out :
  run self program inbuf = Some (self', Return out) →
  ∃ bracket_map n l',
    build_bracket_map (sanitize program) = Return bracket_map ∧
    exec_many (sanitize program) bracket_map inbuf
      (Z.of_nat (length (tape self))) n self initial_locals = Return (self', l') ∧
    (n = 0%nat ∨ Z.of_nat n <= max_steps self) ∧
    (length (sanitize program) ≤ ip l')%nat ∧
    out = join (out_chars l').
Proof.
  unfold run. destruct (build_bracket_map _) as [bm|e] eqn:Hmap; [|done].
  intros (n & l' & Hn & Hle & Hlast)%loop_reaches_within.
  exists bm, n, l'. split_and!; [done..|cbn in Hle; lia| |];
    rewrite loop_S in Hlast;
    destruct (ip l' <? length (sanitize program))%nat eqn:Hip.
  - destruct (steps l' >=? max_steps self'); [done|].
    by destruct (exec_instr _ _ _ _ self' l') as [[? ?]|?].
  - by apply Nat.ltb_ge in Hip.
  - destruct (steps l' >=? max_steps self'); [done|].
    by destruct (exec_instr _ _ _ _ self' l') as [[? ?]|?].
  - by simplify_eq.
Qed.

(** X8. A run that returns has printed at most one character per
    executed instruction: its output is no longer than [max_steps]
    (and empty when [max_steps <= 0]). *)
Theorem output_bounded (self : Interp) (program inbuf : str)
    (self' : Interp) (out : str) :
  run self program inbuf = Some (self', Return out) →
  Z.of_nat (length out) <= Z.max 0 (max_steps self).
Proof.
  intros (bm & n & l' & _ & Hn & Hle & _ & ->)%run_Return_inv.
  apply exec_many_io in Hn as (Hout & _). cbn in Hout. lia.
Qed.

Lemma output_bounded_witness :
  run (mkInterp [0] 0 6) (lit "+.+.+.") [] = Some (mkInterp [3] 0 6, Return [1; 2; 3]) ∧
  Z.of_nat (length [1; 2; 3]) <= Z.max 0 (max_steps (mkInterp [0] 0 6)).
Proof.
  assert (run (mkInterp [0] 0 6) (lit "+.+.+.") []
          = Some (mkInterp [3] 0 6, Return [1; 2; 3])) as Hrun
    by (vm_compute; reflexivity).
  split; [exact Hrun|]. exact (output_bounded _ _ _ _ _ Hrun).
Defined.

(** ** The step limit and the result *)

Section Budget.

Variable program : str.
Variable bracket_map : gmap nat nat.
Variable inbuf : str.
Variable tape_len : Z.
Variable limit : Z.

(** The instructions never look at [max_steps]. *)
Lemma dispatch_set_max_steps cmd self l self' l' :
  dispatch bracket_map inbuf tape_len cmd self l = Return (self', l') →
  dispatch bracket_map inbuf tape_len cmd (set_max_steps limit self) l
    = Return (set_max_steps limit self', l').
Proof.
  unfold dispatch. cbn [set_max_steps tape ptr].
  intros Hd. dispatch_cases.
Qed.

Lemma exec_instr_set_max_steps self l self' l' :
  exec_instr program bracket_map inbuf tape_len self l = Return (self', l') →
  exec_instr program bracket_map inbuf tape_len (set_max_steps limit self) l
    = Return (set_max_steps limit self', l').
Proof.
  intros (cmd & l1 & Hcmd & Hd & ->)%exec_instr_inv.
  unfold exec_instr. cbn -[dispatch]. rewrite Hcmd. cbn -[dispatch].
  by rewrite (dispatch_set_max_steps _ _ _ _ _ Hd).
Qed.

Lemma exec_many_set_max_steps n : ∀ self l self' l',
  exec_many program bracket_map inbuf tape_len n self l = Return (self', l') →
  exec_many program bracket_map inbuf tape_len n (set_max_steps limit self) l
    = Return (set_max_steps limit self', l').
Proof.
  induction n as [|n IH]; intros self l self' l'.
  - by intros [= <- <-].
  - intros (self1 & l1 & He%exec_instr_set_max_steps & Hn%IH)%exec_many_S.
    apply exec_many_S. eauto.
Qed.

End Budget.

(** X7. A larger step limit never changes a result: a run that returns
    an output under the limit [max_steps] returns the same output, and
    leaves the same tape and cursor, under every limit that is at
    least as large. *)
Theorem more_steps_same_result (self : Interp) (program inbuf : str)
    (self' : Interp) (out : str) (limit : Z) :
  run self program inbuf = Some (self', Return out) →
  max_steps self <= limit →
  run (set_max_steps limit self) program inbuf
    = Some (set_max_steps limit self', Return out).
Proof.
  intros (bm & n & l' & Hmap & Hn & Hle & Hend & ->)%run_Return_inv Hlimit.
  apply (run_reaches_end _ _ _ bm Hmap n); [|done|cbn; lia].
  by apply exec_many_set_max_steps.
Qed.

Lemma more_steps_same_result_witness :
  run (mkInterp [0; 0] 0 8) (lit ",[.,]") (lit "hi")
    = Some (mkInterp [0; 0] 0 8, Return (lit "hi")) ∧
  run (mkInterp [0; 0] 0 2000000) (lit ",[.,]") (lit "hi")
    = Some (mkInterp [0; 0] 0 2000000, Return (lit "hi")).
Proof.
  assert (run (mkInterp [0; 0] 0 8) (lit ",[.,]") (lit "hi")
          = Some (mkInterp [0; 0] 0 8, Return (lit "hi"))) as Hrun
    by (vm_compute; reflexivity).
  split; [exact Hrun|].
  apply (more_steps_same_result _ _ _ _ _ 2000000 Hrun). cbn. lia.
Defined.

(** ** Single instructions on a cursor in range *)

Lemma write_cell_cursor x self :
  cursor_in_range self → cursor_in_range (write_cell x self).
Proof. intros. apply set_tape_cursor; [apply length_insert|done]. Qed.

Lemma write_cell_current x self :
  cursor_in_range self → current_cell (write_cell x self) = Some x.
Proof. apply current_cell_written. Qed.

Lemma write_cell_again x y self :
  write_cell y (write_cell x self) = write_cell y self.
Proof. unfold write_cell, set_tape. cbn. by rewrite list_insert_insert_eq. Qed.

Lemma write_cell_well_formed x self :
  valid_codepoint x → well_formed self → well_formed (write_cell x self).
Proof.
  intros Hx [Hc Hcells]. split; [by apply write_cell_cursor|].
  cbn. by apply Forall_insert.
Qed.

Section Single.

Variable program : str.
Variable bracket_map : gmap nat nat.
Variable inbuf : str.
Variable tape_len : Z.

Lemma exec_instr_at self l cmd :
  program !! ip l = Some cmd →
  exec_instr program bracket_map inbuf tape_len self l =
  '(self', l') ← dispatch bracket_map inbuf tape_len cmd self
                    (set_steps (steps l + 1) l);
  Return (self', set_ip (S (ip l')) l').
Proof. unfold exec_instr. cbn -[dispatch]. by intros ->. Qed.

Lemma dispatch_dot self l v :
  current_cell self = Some v → valid_codepoint v →
  dispatch bracket_map inbuf tape_len (ch ".") self l =
  Return (self, set_out_chars (out_chars l ++ [[v]]) l).
Proof.
  intros Hv Hvalid.
  change (dispatch bracket_map inbuf tape_len (ch ".") self l)
    with (v ← or_raise (current_cell self) IndexError;
          s ← chr v;
          Return (self, set_out_chars (out_chars l ++ [s]) l)).
  rewrite Hv. cbn -[chr]. by rewrite chr_valid.
Qed.

Lemma dispatch_comma_read self l c :
  cursor_in_range self → inbuf !! in_idx l = Some c →
  dispatch bracket_map inbuf tape_len (ch ",") self l =
  Return (write_cell c self, set_in_idx (S (in_idx l)) l).
Proof.
  intros Hc Hin.
  change (dispatch bracket_map inbuf tape_len (ch ",") self l)
    with (if (in_idx l <? length inbuf)%nat then
            c ← or_raise (inbuf !! in_idx l) IndexError;
            t ← or_raise (setitem (tape self) (ptr self) (ord c)) IndexError;
            Return (set_tape t self, set_in_idx (S (in_idx l)) l)
          else
            t ← or_raise (setitem (tape self) (ptr self) 0) IndexError;
            Return (set_tape t self, l)).
  rewrite (proj2 (Nat.ltb_lt _ _) (lookup_lt_Some _ _ _ Hin)), Hin.
  cbn -[setitem]. by rewrite (setitem_in_range _ _ _ Hc).
Qed.

Lemma dispatch_comma_eof self l :
  cursor_in_range self → inbuf !! in_idx l = None →
  dispatch bracket_map inbuf tape_len (ch ",") self l =
  Return (write_cell 0 self, l).
Proof.
  intros Hc Hin.
  change (dispatch bracket_map inbuf tape_len (ch ",") self l)
    with (if (in_idx l <? length inbuf)%nat then
            c ← or_raise (inbuf !! in_idx l) IndexError;
            t ← or_raise (setitem (tape self) (ptr self) (ord c)) IndexError;
            Return (set_tape t self, set_in_idx (S (in_idx l)) l)
          else
            t ← or_raise (setitem (tape self) (ptr self) 0) IndexError;
            Return (set_tape t self, l)).
  rewrite (proj2 (Nat.ltb_ge _ _) (proj1 (lookup_ge_None _ _) Hin)).
  cbn -[setitem]. by rewrite (setitem_in_range _ _ _ Hc).
Qed.

Lemma dispatch_open_zero self l target :
  current_cell self = Some 0 → bracket_map !! ip l = Some target →
  dispatch bracket_map inbuf tape_len (ch "[") self l =
  Return (self, set_ip target l).
Proof. intros Hv Ht. by rewrite dispatch_open, Hv; cbn; rewrite Ht. Qed.

Lemma dispatch_open_nonzero self l v :
  current_cell self = Some v → v ≠ 0 →
  dispatch bracket_map inbuf tape_len (ch "[") self l = Return (self, l).
Proof.
  intros Hv Hnz. rewrite dispatch_open, Hv. cbn.
  by destruct (Z.eqb_spec v 0).
Qed.

Lemma dispatch_close_zero self l :
  current_cell self = Some 0 →
  dispatch bracket_map inbuf tape_len (ch "]") self l = Return (self, l).
Proof. intros Hv. by rewrite dispatch_close, Hv. Qed.

Lemma dispatch_close_nonzero self l v target :
  current_cell self = Some v → v ≠ 0 → bracket_map !! ip l = Some target →
  dispatch bracket_map inbuf tape_len (ch "]") self l =
  Return (self, set_ip target l).
Proof.
  intros Hv Hnz Ht. rewrite dispatch_close, Hv. cbn.
  destruct (Z.eqb_spec v 0); [done|]. cbn. by rewrite Ht.
Qed.

End Single.

(** ** The cat program *)

Lemma drop_lookup_head {A} (l : list A) i x t :
  drop i l = x :: t → l !! i = Some x ∧ drop (S i) l = t.
Proof.
  intros Hdrop. split.
  - pose proof (lookup_drop l i 0) as Hl. by rewrite Hdrop, Nat.add_0_r in Hl.
  - pose proof (drop_drop l 1 i) as Hd. by rewrite Hdrop, Nat.add_1_r in Hd.
Qed.

Lemma join_singletons (s : str) : join ((fun c => [c]) <$> s) = s.
Proof. unfold join. induction s as [|c s IH]; [done|]. cbn. by rewrite IH. Qed.

Lemma cat_sanitized : sanitize (lit ",[.,]") = lit ",[.,]".
Proof. vm_compute. reflexivity. Qed.

Lemma cat_bracket_map :
  build_bracket_map (lit ",[.,]") = Return {[ 1%nat := 4%nat; 4%nat := 1%nat ]}.
Proof. vm_compute. reflexivity. Qed.

Section Cat.

Variable inbuf : str.
Variable tape_len : Z.

Local Abbreviation cat_many :=
  (exec_many (lit ",[.,]") {[ 1%nat := 4%nat; 4%nat := 1%nat ]} inbuf tape_len).
Local Abbreviation cat_instr :=
  (exec_instr (lit ",[.,]") {[ 1%nat := 4%nat; 4%nat := 1%nat ]} inbuf tape_len).

(** The passes [.], [,], []] of the loop body, from position 2. *)
Lemma cat_print self st out idx c :
  current_cell self = Some c → valid_codepoint c →
  cat_instr self (mkLocals 2 st out idx)
  = Return (self, mkLocals 3 (st + 1) (out ++ [[c]]) idx).
Proof.
  intros Hv Hvalid. rewrite (exec_instr_at _ _ _ _ _ _ (ch ".")) by done.
  by rewrite (dispatch_dot _ _ _ _ _ c).
Qed.

Lemma cat_read self st out idx c :
  cursor_in_range self → inbuf !! idx = Some c →
  cat_instr self (mkLocals 3 st out idx)
  = Return (write_cell c self, mkLocals 4 (st + 1) out (S idx)).
Proof.
  intros Hc Hin. rewrite (exec_instr_at _ _ _ _ _ _ (ch ",")) by done.
  by rewrite (dispatch_comma_read _ _ _ _ _ c).
Qed.

Lemma cat_read_eof self st out idx :
  cursor_in_range self → inbuf !! idx = None →
  cat_instr self (mkLocals 3 st out idx)
  = Return (write_cell 0 self, mkLocals 4 (st + 1) out idx).
Proof.
  intros Hc Hin. rewrite (exec_instr_at _ _ _ _ _ _ (ch ",")) by done.
  by rewrite dispatch_comma_eof.
Qed.

Lemma cat_again self st out idx c :
  current_cell self = Some c → c ≠ 0 →
  cat_instr self (mkLocals 4 st out idx)
  = Return (self, mkLocals 2 (st + 1) out idx).
Proof.
  intros Hv Hnz. rewrite (exec_instr_at _ _ _ _ _ _ (ch "]")) by done.
  by rewrite (dispatch_close_nonzero _ _ _ _ _ c 1%nat).
Qed.

Lemma cat_leave self st out idx :
  current_cell self = Some 0 →
  cat_instr self (mkLocals 4 st out idx)
  = Return (self, mkLocals 5 (st + 1) out idx).
Proof.
  intros Hv. rewrite (exec_instr_at _ _ _ _ _ _ (ch "]")) by done.
  by rewrite dispatch_close_zero.
Qed.

(** From position 2 with a non-zero character [c] in the cell, the loop
    prints [c] and what is left of the input up to its end or its first
    NUL, then leaves with the cell at 0. *)
Lemma cat_loop pre : ∀ self st out idx c rest,
  cursor_in_range self →
  current_cell self = Some c → c ≠ 0 → valid_codepoint c →
  Forall (fun x => x ≠ 0 ∧ valid_codepoint x) pre →
  drop idx inbuf = pre ++ rest →
  rest = [] ∨ (∃ rest', rest = 0 :: rest') →
  ∃ idx',
    cat_many (3 * S (length pre)) self (mkLocals 2 st out idx)
    = Return (write_cell 0 self,
              mkLocals 5 (st + 3 * Z.of_nat (S (length pre)))
                       (out ++ ((fun x => [x]) <$> (c :: pre))) idx').
Proof.
  induction pre as [|c' pre IH];
    intros self st out idx c rest Hc Hv Hnz Hvalid Hpre Hdrop Hrest.
  - cbn [app length] in Hdrop.
    assert (∃ idx', cat_instr self (mkLocals 3 (st + 1) (out ++ [[c]]) idx)
                    = Return (write_cell 0 self,
                              mkLocals 4 (st + 1 + 1) (out ++ [[c]]) idx'))
      as [idx' Hread].
    { destruct Hrest as [->|[rest' ->]].
      - exists idx. apply cat_read_eof; [done|].
        apply lookup_ge_None. by apply drop_nil_inv.
      - exists (S idx). apply cat_read; [done|].
        by apply drop_lookup_head in Hdrop as [? _]. }
    exists idx'. change (3 * S (length (@nil Z)))%nat with 3%nat.
    apply exec_many_S. eexists _, _. split; [by apply cat_print|].
    apply exec_many_S. eexists _, _. split; [exact Hread|].
    apply exec_many_S. eexists _, _.
    split; [by apply cat_leave, write_cell_current|].
    cbn. do 3 f_equal. lia.
  - apply Forall_cons in Hpre as [[Hnz' Hvalid'] Hpre].
    apply drop_lookup_head in Hdrop as [Hin Hdrop].
    destruct (IH (write_cell c' self) (st + 1 + 1 + 1) (out ++ [[c]]) (S idx)
                 c' rest) as [idx' Hrest'];
      [by apply write_cell_cursor|by apply write_cell_current|done..|].
    exists idx'.
    replace (3 * S (length (c' :: pre)))%nat
      with (3 + 3 * S (length pre))%nat by (cbn [length]; lia).
    rewrite exec_many_add.
    assert (cat_many 3 self (mkLocals 2 st out idx)
            = Return (write_cell c' self,
                      mkLocals 2 (st + 1 + 1 + 1) (out ++ [[c]]) (S idx)))
      as ->.
    { apply exec_many_S. eexists _, _. split; [by apply cat_print|].
      apply exec_many_S. eexists _, _. split; [by apply cat_read|].
      apply exec_many_S. eexists _, _.
      split; [|done].
      apply (cat_again _ _ _ _ c'); [by apply write_cell_current|done]. }
    cbn [mbind outcome_bind]. rewrite Hrest', write_cell_again.
    rewrite <- app_assoc. cbn [length fmap list_fmap app].
    do 3 f_equal. lia.
Qed.

(** The whole program on an input that starts with [pre], characters
    other than NUL, and then ends or goes on with a NUL. *)
Lemma cat_passes self pre rest :
  inbuf = pre ++ rest →
  cursor_in_range self →
  Forall (fun x => x ≠ 0 ∧ valid_codepoint x) pre →
  rest = [] ∨ (∃ rest', rest = 0 :: rest') →
  ∃ idx',
    cat_many (2 + 3 * length pre) self initial_locals
    = Return (write_cell 0 self,
              mkLocals 5 (Z.of_nat (2 + 3 * length pre))
                       ((fun x => [x]) <$> pre) idx').
Proof.
  intros Hin Hc Hpre Hrest. destruct pre as [|c pre].
  - cbn [app length] in *.
    assert (∃ idx', cat_instr self initial_locals
                    = Return (write_cell 0 self, mkLocals 1 (0 + 1) [] idx'))
      as [idx' Hread].
    { unfold initial_locals. destruct Hrest as [->|[rest' ->]].
      - exists 0%nat. rewrite (exec_instr_at _ _ _ _ _ _ (ch ",")) by done.
        rewrite dispatch_comma_eof; [done..|]. by rewrite Hin.
      - exists 1%nat. rewrite (exec_instr_at _ _ _ _ _ _ (ch ",")) by done.
        rewrite (dispatch_comma_read _ _ _ _ _ 0); [done..|]. by rewrite Hin. }
    exists idx'. change (2 + 3 * 0)%nat with 2%nat.
    apply exec_many_S. eexists _, _. split; [exact Hread|].
    apply exec_many_S. eexists _, _. split; [|done].
    rewrite (exec_instr_at _ _ _ _ _ _ (ch "[")) by done.
    rewrite (dispatch_open_zero _ _ _ _ _ 4%nat);
      [done|by apply write_cell_current|done].
  - apply Forall_cons in Hpre as [[Hnz Hvalid] Hpre].
    destruct (cat_loop pre (write_cell c self) (0 + 1 + 1) [] 1 c rest)
      as [idx' Hloop];
      [by apply write_cell_cursor|by apply write_cell_current|done..| |done|].
    { by rewrite Hin. }
    exists idx'.
    replace (2 + 3 * length (c :: pre))%nat
      with (2 + 3 * S (length pre))%nat by done.
    rewrite exec_many_add.
    assert (cat_many 2 self initial_locals
            = Return (write_cell c self, mkLocals 2 (0 + 1 + 1) [] 1)) as ->.
    { apply exec_many_S. eexists _, _. split.
      - unfold initial_locals.
        rewrite (exec_instr_at _ _ _ _ _ _ (ch ",")) by done.
        rewrite (dispatch_comma_read _ _ _ _ _ c); [done..|]. by rewrite Hin.
      - apply exec_many_S. eexists _, _. split; [|done].
        rewrite (exec_instr_at _ _ _ _ _ _ (ch "[")) by done.
        rewrite (dispatch_open_nonzero _ _ _ _ _ c);
          [done|by apply write_cell_current|done]. }
    cbn [mbind outcome_bind]. rewrite Hloop, write_cell_again.
    cbn [app]. do 3 f_equal. lia.
Qed.

End Cat.

(** X3. The cat program [",[.,]"] copies its input: on an input that
    begins with the characters [pre], none of them NUL, and then ends or
    continues with a NUL, [run] returns exactly [pre] and leaves 0 in
    the cell it used.  This holds on every interpreter whose cursor is
    in range and whose step limit is at least [2 + 3 * len(pre)], the
    number of instructions the copy takes. *)
Theorem cat_copies_input (self : Interp) (pre rest : str) :
  cursor_in_range self →
  Forall (fun x => x ≠ 0 ∧ valid_codepoint x) pre →
  rest = [] ∨ (∃ rest', rest = 0 :: rest') →
  Z.of_nat (2 + 3 * length pre) <= max_steps self →
  run self (lit ",[.,]") (pre ++ rest) = Some (write_cell 0 self, Return pre).
Proof.
  intros Hc Hpre Hrest Hlimit.
  destruct (cat_passes (pre ++ rest) (Z.of_nat (length (tape self)))
              self pre rest eq_refl Hc Hpre Hrest) as [idx' Hn].
  pose proof (run_reaches_end self (lit ",[.,]") (pre ++ rest)
                {[ 1%nat := 4%nat; 4%nat := 1%nat ]}) as Hrun.
  rewrite cat_sanitized in Hrun.
  rewrite (Hrun cat_bracket_map _ _ _ Hn); [|done|by right].
  cbn [out_chars]. by rewrite join_singletons.
Qed.

Lemma cat_copies_input_witness :
  run (mkInterp (replicate 5 0) 3 2000000) (lit ",[.,]") (lit "hello")
  = Some (mkInterp (replicate 5 0) 3 2000000, Return (lit "hello")).
Proof.
  assert (lit "hello" = lit "hello" ++ []) as -> by done.
  apply (cat_copies_input (mkInterp (replicate 5 0) 3 2000000)
           (lit "hello") []).
  - by vm_compute.
  - repeat constructor; by vm_compute.
  - by left.
  - by vm_compute.
Defined.

(** ** Programs without loops *)

Lemma loop_free_sanitize program :
  loop_free program → loop_free (sanitize program).
Proof.
  unfold loop_free. rewrite sanitize_filter. intros Hfree.
  apply Forall_forall. intros c [_ Hc]%list_elem_of_filter.
  by apply (proj1 (Forall_forall _ _) Hfree).
Qed.

Lemma scan_brackets_loop_free program : ∀ pos stack bracket_map,
  loop_free program →
  scan_brackets pos program stack bracket_map = Return (stack, bracket_map).
Proof.
  induction program as [|c program IH]; intros pos stack bm; [done|].
  intros [[Ho Hcl] Hfree]%Forall_cons. rewrite scan_brackets_cons.
  destruct (Z.eqb_spec c (ch "[")); [done|].
  destruct (Z.eqb_spec c (ch "]")); [done|]. by apply IH.
Qed.

Lemma loop_free_no_bracket program p :
  loop_free program → ¬ is_bracket_at program p.
Proof.
  intros Hfree [Hp|Hp];
    by destruct (Forall_lookup_1 _ _ _ _ Hfree Hp) as [? ?].
Qed.

Section StraightLine.

Variable program : str.
Variable inbuf : str.
Hypothesis Hfree : loop_free program.
Hypothesis Hinbuf : Forall valid_codepoint inbuf.

(** Without brackets the [n]-th pass runs the [n]-th instruction. *)
Lemma straight_line self n :
  well_formed self →
  (n ≤ length program)%nat →
  ∃ self' l',
    exec_many program ∅ inbuf (Z.of_nat (length (tape self))) n self
              initial_locals = Return (self', l') ∧
    ip l' = n.
Proof.
  intros Hwf. induction n as [|n IH]; intros Hn.
  - by exists self, initial_locals.
  - destruct IH as (self1 & l1 & Hn1 & Hip); [lia|].
    pose proof (exec_many_well_formed _ _ _ Hinbuf _ _ _ _ _ Hwf Hn1)
      as [Hwf1 Hlen].
    destruct (exec_instr_safe program ∅ inbuf) with (self := self1) (l := l1)
      as (self2 & l2 & He); [|done|lia|].
    { intros p Hp. by apply loop_free_no_bracket in Hp. }
    rewrite Hlen in He. exists self2, l2. split.
    + replace (S n) with (n + 1)%nat by lia.
      rewrite exec_many_add, Hn1. cbn -[exec_instr]. rewrite He. done.
    + apply exec_instr_inv in He as (cmd & l0 & Hcmd & Hd & ->).
      apply dispatch_ip in Hd. cbn in *.
      destruct (Forall_lookup_1 _ _ _ _ Hfree Hcmd) as [? ?].
      destruct Hd as [(? & _)|[(? & _)|[(? & _)|[(? & _)|(_ & _ & ->)]]]];
        congruence.
Qed.

End StraightLine.

(** X9. A program without brackets runs each of its commands once, from
    left to right, and returns: on a well-formed interpreter and a
    Python string as input, [run] returns an output whenever
    [max_steps] is at least the number of commands of the program, and
    it does so whatever the tape holds. *)
Theorem loop_free_returns (self : Interp) (program inbuf : str) :
  well_formed self →
  Forall valid_codepoint inbuf →
  loop_free program →
  Z.of_nat (length (sanitize program)) <= max_steps self →
  ∃ self' out, run self program inbuf = Some (self', Return out).
Proof.
  intros Hwf Hinbuf Hfree%loop_free_sanitize Hlimit.
  destruct (straight_line _ inbuf Hfree Hinbuf self
              (length (sanitize program)) Hwf) as (self' & l' & Hn & Hip);
    [done|].
  exists self', (join (out_chars l')).
  apply (run_reaches_end _ _ _ ∅) with (n := length (sanitize program));
    [|done|lia|by right].
  unfold build_bracket_map. by rewrite scan_brackets_loop_free.
Qed.

Lemma loop_free_returns_witness :
  ∃ self' out,
    run (mkInterp [0; 0] 0 9) (lit "+>,<.-- noise") (lit "x")
    = Some (self', Return out).
Proof.
  apply loop_free_returns.
  - split; [by vm_compute|]. repeat constructor; by vm_compute.
  - repeat constructor; by vm_compute.
  - repeat constructor; by vm_compute.
  - by vm_compute.
Defined.

(** ** The command line *)

Lemma sanitize_idempotent program : sanitize (sanitize program) = sanitize program.
Proof. apply sanitize_fixpoint, sanitize_commands. Qed.

(** [run] sanitizes for itself: text sanitized beforehand runs alike. *)
Lemma run_sanitized self program inbuf :
  run self (sanitize program) inbuf = run self program inbuf.
Proof. unfold run. by rewrite sanitize_idempotent. Qed.


Section Main.

Variable read_file : str → option str.
Variable encode_error : str → option str.

Local Abbreviation main := (Cli.main read_file encode_error).
Local Abbreviation try_run := (Cli.try_run encode_error).



(** X12. The option [--no-sanitize] changes nothing: [run] sanitizes the
    program itself, so [main] ends the same way, with the same output,
    whether the flag is given or not. *)
Theorem no_sanitize_no_effect (file program : option str) (input : str)
    (tape_size max_steps : Z) (flag : bool) :
  main (Cli.mkArgs file program input tape_size max_steps flag) =
  main (Cli.mkArgs file program input tape_size max_steps false).
Proof.
  unfold Cli.main. cbn.
  assert (∀ text,
            try_run (Cli.mkArgs file program input tape_size max_steps flag)
                    (if negb flag then sanitize text else text)
            = try_run (Cli.mkArgs file program input tape_size max_steps false)
                      (sanitize text)) as Hsame.
  { intros text. unfold Cli.try_run. cbn.
    destruct (init tape_size max_steps) as [it|e]; [|done].
    destruct flag; cbn; [|done]. by rewrite run_sanitized. }
  destruct (Cli.truthy file); [destruct file as [path|]; [|done]|];
    [destruct (read_file path); [|done]|]; apply Hsame.
Qed.


(** X18. A tape size that is too large is not reported as an error.
    Once the program text is there, a tape size above [sys.maxsize]
    makes [main] end with an [OverflowError], and one above an eighth of
    it with a [MemoryError]: nothing is written, no exit code is
    returned, whatever the program. *)
Theorem huge_tape_size (args : Cli.Args) :
  sys_maxsize / 8 < Cli.tape_size args →
  (Cli.truthy (Cli.file args) = true →
   ∃ path text, Cli.file args = Some path ∧ read_file path = Some text) →
  main args =
    Some (Cli.Propagates
            (Cli.Uncaught (if sys_maxsize <? Cli.tape_size args
                           then OverflowError else MemoryError))).
Proof.
  intros Hsize Hfile. unfold Cli.main.
  assert (∀ text,
            try_run args text =
            Some (Cli.Propagates
                    (Cli.Uncaught (if sys_maxsize <? Cli.tape_size args
                                   then OverflowError else MemoryError))))
    as Hhuge.
  { intros text. unfold Cli.try_run.
    destruct (init (Cli.tape_size args) (Cli.max_steps args))
      as [it|e] eqn:Hinit.
    - unfold init in Hinit.
      destruct (Z.leb_spec (Cli.tape_size args) 0); [done|].
      destruct (repeat_item 0 (Cli.tape_size args)) as [cells|e] eqn:Hcells;
        [|done].
      apply repeat_item_Return in Hcells as [? _]. lia.
    - apply init_Raise in Hinit as [[-> ?]|[[-> ?]|[-> ?]]].
      + assert (0 <= sys_maxsize / 8) by (by vm_compute). lia.
      + by destruct (Z.ltb_spec sys_maxsize (Cli.tape_size args)); [|lia].
      + by destruct (Z.ltb_spec sys_maxsize (Cli.tape_size args)); [lia|]. }
  destruct (Cli.truthy (Cli.file args)); [|apply Hhuge].
  destruct Hfile as (path & text & -> & ->); [done|]. apply Hhuge.
Qed.

End Main.

Lemma huge_tape_size_witness :
  Cli.main (fun _ => None) (fun _ => None)
    (Cli.mkArgs None (Some (lit "+.")) [] (2 ^ 63) 100 false) =
  Some (Cli.Propagates (Cli.Uncaught OverflowError)).
Proof.
  apply (huge_tape_size (fun _ => None) (fun _ => None)
           (Cli.mkArgs None (Some (lit "+.")) [] (2 ^ 63) 100 false)).
  - by vm_compute.
  - intros Hfile. by vm_compute in Hfile.
Defined.



(** ** The messages *)

Lemma ch_inj : Inj (=) (=) ch.
Proof.
  intros a b Hab. unfold ch in Hab. apply N2Z.inj in Hab.
  by rewrite <- (ascii_N_embedding a), <- (ascii_N_embedding b), Hab.
Qed.

Lemma lit_inj : Inj (=) (=) lit.
Proof.
  intros s t Hst. unfold lit in Hst.
  apply (list_fmap_eq_inj ch ch_inj) in Hst.
  by rewrite <- (string_of_list_ascii_of_string s),
             <- (string_of_list_ascii_of_string t), Hst.
Qed.

Lemma str_of_int_inj : Inj (=) (=) Cli.str_of_int.
Proof. intros a b Hab%lit_inj. by apply (inj pretty). Qed.

(** X14. The message tells the error: two exceptions that [main]
    catches and that print the same message are the same exception, with
    the same position or the same limit. *)
Theorem caught_injective (e1 e2 : exn) (msg : str) :
  Cli.caught e1 = Some msg → Cli.caught e2 = Some msg → e1 = e2.
Proof.
  destruct e1 as [p1|p1|n1| | | | | | |k1], e2 as [p2|p2|n2| | | | | | |k2];
    cbn [Cli.caught]; intros H1 H2;
    try discriminate H1; try discriminate H2;
    try reflexivity;
    pose proof (inj Some _ _ (eq_trans H1 (eq_sym H2))) as H; clear H1 H2;
    try (do 3 apply app_inv_head in H;
         apply str_of_int_inj, Nat2Z.inj in H; by rewrite H);
    try (apply app_inv_head, app_inv_tail, str_of_int_inj in H; by rewrite H);
    exfalso; revert H;
    repeat match goal with
           | |- context [Cli.str_of_int ?z] =>
               generalize (Cli.str_of_int z); intro
           end;
    intros H; vm_compute in H; discriminate H.
Qed.

Lemma caught_injective_witness :
  SyntaxError_UnmatchedOpen 12 = SyntaxError_UnmatchedOpen 12.
Proof.
  apply (caught_injective _ _
           (lit "Unmatched '[' en posici" ++ [243] ++ lit "n 12"));
    by vm_compute.
Defined.

(** ** More on the command line *)

Section MainRun.

Variable read_file : str → option str.
Variable encode_error : str → option str.


(** X16. A program read from a file behaves as the same text given with
    [-p]: when the file named by [-f] can be opened and holds [text],
    [main] ends as it does for [-p text] with the other options
    unchanged. *)
Theorem file_as_program (path text : str) (program : option str) (input : str)
    (tape_size max_steps : Z) (flag : bool) :
  path ≠ [] →
  read_file path = Some text →
  Cli.main read_file encode_error
    (Cli.mkArgs (Some path) program input tape_size max_steps flag) =
  Cli.main read_file encode_error
    (Cli.mkArgs None (Some text) input tape_size max_steps flag).
Proof.
  intros Hpath Hread. unfold Cli.main. cbn.
  destruct path as [|c path]; [done|]. by rewrite Hread.
Qed.

End MainRun.


Lemma file_as_program_witness :
  Cli.main (fun path => if decide (path = lit "cat.bf") then Some (lit ",[.,]") else None)
           (fun _ => None)
           (Cli.mkArgs (Some (lit "cat.bf")) None (lit "hi") 3 100 false) =
  Cli.main (fun path => if decide (path = lit "cat.bf") then Some (lit ",[.,]") else None)
           (fun _ => None)
           (Cli.mkArgs None (Some (lit ",[.,]")) (lit "hi") 3 100 false).
Proof. apply file_as_program; by vm_compute. Defined.

(** ** More on the sanitizer *)

(** X17. Sanitizing works piece by piece: the sanitized concatenation of
    two texts is the concatenation of the sanitized texts.  The result is
    never longer than the text, and it is empty exactly when the text
    holds no command character. *)
Theorem sanitize_concat (s1 s2 : str) :
  sanitize (s1 ++ s2) = sanitize s1 ++ sanitize s2 ∧
  (length (sanitize s1) ≤ length s1)%nat ∧
  (sanitize s1 = [] ↔ Forall (fun c => ¬ is_command c) s1).
Proof.
  split_and!.
  - apply sanitize_app.
  - rewrite sanitize_filter. apply length_filter.
  - induction s1 as [|c s1 IH]; [done|].
    rewrite sanitize_cons, Forall_cons.
    destruct (decide (c ∈ BF_CHARS)) as [Hc|Hc];
      rewrite BF_CHARS_spec in Hc; [split; [done|tauto]|tauto].
Qed.
